(** * A model of the Solid chat hook: packages/core/solid/use-chat.ts

    The hook keeps the message list of a conversation in a keyed store,
    posts the whole conversation to an endpoint, and folds the streamed
    reply into a trailing assistant message.  The asynchronous function
    [triggerRequest] is embedded as a task over an explicit state: every
    [await] is a suspension point at which the environment answers (the
    network, the response hook, the stream reader) and at which the user
    interface may call [stop].  One request of one hook is followed from
    its start to its end; what other requests or other hooks on the same
    key would write in between is outside the model. *)

From stdpp Require Import gmap strings list pretty.
From Stdlib Require Import ZArith.

Set Warnings "-register-all".
Local Open Scope string_scope.
Local Open Scope Z_scope.
Local Open Scope list_scope.

(** ** Data model *)

Inductive Role := user | assistant | system.

#[global] Instance Role_eq_dec : EqDecision Role.
Proof. solve_decision. Defined.

(** [Message] of ../shared/types: an id, an optional creation date (in
    milliseconds), the text and the role. *)
Record Message := mkMessage {
  id : string;
  createdAt : option Z;
  content : string;
  role : Role;
}.

(** [CreateMessage]: a message whose id may still be missing. *)
Record CreateMessage := mkCreateMessage {
  cm_id : option string;
  cm_createdAt : option Z;
  cm_content : string;
  cm_role : Role;
}.

(** Thrown values.  [name] is what [(err as any).name] reads and
    [instanceofError] is the answer of [err instanceof Error]. *)
Record Err := mkErr {
  name : string;
  message : string;
  instanceofError : bool;
}.

(** [new Error(msg)] *)
Definition Error (msg : string) : Err :=
  {| name := "Error"; message := msg; instanceofError := true |}.

(** The value an awaited call of [append] or [reload] settles to:
    [Promise<string | null | undefined>]. *)
Inductive Settled := Text (s : string) | Null | Undefined.

(** ** JSON values and object spread *)

(** The values handed to [JSON.stringify].  [JDate t] is the [Date] of
    time [t], which [JSON.stringify] writes as its ISO string. *)

Inductive JSON :=
| JNull
| JBool (b : bool)
| JNum (n : Z)
| JDate (t : Z)
| JStr (s : string)
| JArr (l : list JSON)
| JObj (fields : list (string * JSON)).

Definition Obj := list (string * JSON).

(** [o[k] = v]: an existing property keeps its place, a new one goes last. *)
Fixpoint assign (o : Obj) (k : string) (v : JSON) : Obj :=
  match o with
  | [] => [(k, v)]
  | (k', v') :: o' =>
      if decide (k' = k) then (k, v) :: o' else (k', v') :: assign o' k v
  end.

(** [{...o, ...src}]; spreading [undefined] adds nothing. *)
Definition spread (o : Obj) (src : option Obj) : Obj :=
  foldl (fun acc kv => assign acc kv.1 kv.2) o (default [] src).

Fixpoint get (o : Obj) (k : string) : option JSON :=
  match o with
  | [] => None
  | (k', v) :: o' => if decide (k' = k) then Some v else get o' k
  end.

(** [j[k]] for a value that is an object. *)
Definition field (j : JSON) (k : string) : option JSON :=
  match j with
  | JObj o => get o k
  | _ => None
  end.

Definition roleName (r : Role) : string :=
  match r with
  | user => "user"
  | assistant => "assistant"
  | system => "system"
  end.

(** A message serialized with all its fields; a missing [createdAt] is
    dropped as [JSON.stringify] drops [undefined]. *)
Definition allFields (m : Message) : JSON :=
  JObj ([("id", JStr (id m))]
        ++ match createdAt m with Some t => [("createdAt", JDate t)] | None => [] end
        ++ [("content", JStr (content m)); ("role", JStr (roleName (role m)))]).

(** [({ role, content }) => ({ role, content })] *)
Definition roleAndContent (m : Message) : JSON :=
  JObj [("role", JStr (roleName (role m))); ("content", JStr (content m))].

(** ** The environment of one request *)

Definition Uint8Array := list Byte.byte.

(** What the reader of a response body answers, read after read: every
    chunk comes with a flag telling whether [stop] was called while the
    read was awaited; the last read reports [done] ([None]) or rejects. *)
Record ReadableStream := mkStream {
  chunks : list (bool * Uint8Array);
  stopDuringLastRead : bool;
  lastRead : option Err;
}.

(** A response: [ok] is [res.ok], [text] is what [await res.text()]
    resolves to (the empty string when there is no body text) and [body]
    is [res.body], missing or read through its reader. *)
Record Response := mkResponse {
  ok : bool;
  text : string;
  body : option ReadableStream;
}.

(** [RequestOptions]: the headers and the body fields of one call. *)
Record RequestOptions := mkRequestOptions {
  ro_headers : option (gmap string string);
  ro_body : option Obj;
}.

(** The argument of [fetch]. *)
Record Request := mkRequest {
  url : string;
  method : string;
  payload : Obj;
  req_headers : gmap string string;
  req_credentials : option string;
}.

(** The options of [useChat] that the request engine reads.  [onResponse]
    is the hook itself: it returns normally ([None]) or throws.  [onFinish]
    and [onError] tell whether the hook is configured; the call of a
    configured hook is recorded in the trace, and whether it returns or
    throws is told by the [Surroundings] of the run. *)
Record UseChatOptions := mkOptions {
  o_api : option string;
  o_id : option string;
  initialMessages : option (list Message);
  sendExtraMessageFields : option bool;
  onResponse : option (Response -> option Err);
  onFinish : bool;
  onError : bool;
  credentials : option string;
  headers : option (gmap string string);
  o_body : option Obj;
}.

(** The answers of the environment to one run of [triggerRequest]: how
    [fetch] settles, the date [new Date()] gives, and whether [stop] is
    called while [fetch], the response hook or [res.text()] is awaited. *)
Record Network := mkNetwork {
  stopDuringFetch : bool;
  fetched : Err + Response;
  stopDuringOnResponse : bool;
  stopDuringText : bool;
  now : Z;
}.

(** What the code around a request may throw into it.  [finishThrows m]
    and [errorThrows err] are what the configured hooks [onFinish] and
    [onError] throw when called with [m] and [err] ([None]: the hook
    returns).  [nullish err] tells that the value thrown is [null] or
    [undefined]: [err] then only stands for it, and reading its [name]
    throws. *)
Record Surroundings := mkSurroundings {
  finishThrows : Message -> option Err;
  errorThrows : Err -> option Err;
  nullish : Err -> bool;
}.

(** The hooks return and every value thrown is an object. *)
Definition quiet : Surroundings :=
  {| finishThrows := fun _ => None;
     errorThrows := fun _ => None;
     nullish := fun _ => false |}.

(** What reading [(err as any).name] throws for [null] or [undefined]. *)
Definition NameOfNullish : Err :=
  {| name := "TypeError";
     message := "Cannot read properties of null (reading 'name')";
     instanceofError := true |}.

(** ../shared/utils: the chunk decoder (stateful, one per request) and the
    id generator, whose n-th call returns [nanoid n]. *)
Class Utils := {
  Decoder : Type;
  createChunkDecoder : Decoder;
  decode : Decoder -> Uint8Array -> Decoder * string;
  nanoid : nat -> string;
}.

(** ** State *)

(** An entry of the swr-store cache: its status and, for [success], its
    data. *)
Inductive MutationResult :=
| Pending
| Success (data : list Message)
| Failure.

(** [new AbortController()]; the hook only tests the handle for [null]. *)
Inductive AbortController := NewAbortController.

(** What a run does to the outside, in order. *)
Inductive Event :=
| Mutate (data : list Message)
| Fetch (req : Request)
| Abort
| CallOnResponse
| CallOnFinish (m : Message)
| CallOnError (e : Err)
| ReaderCancel.

(** The module-level [store] and [chatApiStore], the signals [error] and
    [isLoading], the variable [abortController], the number of ids drawn
    so far, and the trace. *)
Record State := mkState {
  store : gmap string (list Message);
  chatApiStore : gmap string MutationResult;
  error : option Err;
  isLoading : bool;
  abortController : option AbortController;
  nanoids : nat;
  trace : list Event;
}.

Definition with_store f st :=
  mkState (f (store st)) (chatApiStore st) (error st) (isLoading st)
          (abortController st) (nanoids st) (trace st).
Definition with_chatApiStore f st :=
  mkState (store st) (f (chatApiStore st)) (error st) (isLoading st)
          (abortController st) (nanoids st) (trace st).
Definition with_error e st :=
  mkState (store st) (chatApiStore st) e (isLoading st)
          (abortController st) (nanoids st) (trace st).
Definition with_isLoading b st :=
  mkState (store st) (chatApiStore st) (error st) b
          (abortController st) (nanoids st) (trace st).
Definition with_abortController a st :=
  mkState (store st) (chatApiStore st) (error st) (isLoading st)
          a (nanoids st) (trace st).
Definition with_nanoids n st :=
  mkState (store st) (chatApiStore st) (error st) (isLoading st)
          (abortController st) n (trace st).
Definition emit ev st :=
  mkState (store st) (chatApiStore st) (error st) (isLoading st)
          (abortController st) (nanoids st) (trace st ++ [ev]).

(** The store writes of a trace, oldest first. *)
Definition writes (tr : list Event) : list (list Message) :=
  omap (fun ev => match ev with Mutate d => Some d | _ => None end) tr.

Definition requests (tr : list Event) : list Request :=
  omap (fun ev => match ev with Fetch r => Some r | _ => None end) tr.

Definition finishes (tr : list Event) : list Message :=
  omap (fun ev => match ev with CallOnFinish m => Some m | _ => None end) tr.

Definition reports (tr : list Event) : list Err :=
  omap (fun ev => match ev with CallOnError e => Some e | _ => None end) tr.

(** ** Tasks: state passing with exceptions *)

Inductive Completion (A : Type) :=
| Return (a : A)
| Throw (e : Err).
Arguments Return {A} a.
Arguments Throw {A} e.

Definition Task (A : Type) := State -> Completion A * State.

Definition ret {A} (a : A) : Task A := fun st => (Return a, st).
Definition throw {A} (e : Err) : Task A := fun st => (Throw e, st).

Definition bind {A B} (t : Task A) (k : A -> Task B) : Task B :=
  fun st =>
    match t st with
    | (Return a, st') => k a st'
    | (Throw e, st') => (Throw e, st')
    end.

Notation "x <- t ;; k" := (bind t (fun x => k))
  (at level 100, t at next level, right associativity).
Notation "t ;; k" := (bind t (fun _ => k))
  (at level 100, right associativity).

(** [try { t } catch (err) { handler err }] *)
Definition try_catch {A} (t : Task A) (handler : Err -> Task A) : Task A :=
  fun st =>
    match t st with
    | (Return a, st') => (Return a, st')
    | (Throw e, st') => handler e st'
    end.

(** [try { t } finally { final }], for a [final] that itself completes
    normally or throws; a throw of [final] replaces the completion of [t]. *)
Definition try_finally {A} (t : Task A) (final : Task unit) : Task A :=
  fun st =>
    let '(c, st') := t st in
    match final st' with
    | (Return _, st'') => (c, st'')
    | (Throw e, st'') => (Throw e, st'')
    end.

Definition modify (f : State -> State) : Task unit := fun st => (Return tt, f st).
Definition read {A} (f : State -> A) : Task A := fun st => (Return (f st), st).
Definition when (b : bool) (t : Task unit) : Task unit := if b then t else ret tt.

(** ** The hook *)

Module UseChat.

Section useChat.
Context `{Utils}.

(** The options of [useChat] and the value of the module counter
    [uniqueId] when the hook is created. *)
Variable options : UseChatOptions.
Variable uniqueId : nat.

Definition api : string := default "/api/chat" (o_api options).

(** [id || `chat-${uniqueId++}`]: an empty id counts as missing. *)
Definition chatId : string :=
  match o_id options with
  | Some i => if decide (i = "") then "chat-" +:+ pretty uniqueId else i
  | None => "chat-" +:+ pretty uniqueId
  end.

Definition key : string := api +:+ "|" +:+ chatId.

(** [store[key] = data; chatApiStore.mutate([key], { status: 'success', data })] *)
Definition mutate (data : list Message) : Task unit :=
  modify (fun st =>
    emit (Mutate data)
      (with_chatApiStore (insert key (Success data))
        (with_store (insert key data) st))).

(** [chatApiStore.get([key], { shouldRevalidate: false })]: the cached
    entry, pending while there is none.  For a key without entry the
    cache of swr-store then also calls its fetcher, and may later put
    what the fetcher read ([store[key] ?? []] as it was at the call) in
    the entry; this revalidation is not modelled.  It leaves the value
    returned here and the store as they are, so that only what the cache
    holds after a request depends on it: that is stated below for a key
    whose entry had status [success] alone. *)
Definition chatApiStore_get : Task MutationResult :=
  read (fun st => default Pending (chatApiStore st !! key)).

(** The resource [messages()] once it has caught up with the cache: the
    list of the cached entry and, while there is none, the [initialData]
    of the subscription, so that it is never [undefined].  Solid updates
    the resource after the cache, so right after a write [messages()]
    may still return the list from before; the statements below about
    [append], [reload] and [handleSubmit] take the list it returns as
    given. *)
Definition messages (st : State) : option (list Message) :=
  match chatApiStore st !! key with
  | Some (Success data) => Some data
  | _ => Some (default [] (initialMessages options))
  end.

Definition setError (e : option Err) : Task unit := modify (with_error e).
Definition setIsLoading (b : bool) : Task unit := modify (with_isLoading b).
Definition setAbortController (a : option AbortController) : Task unit :=
  modify (with_abortController a).

(** [stop]: abort the request in flight, if any, and drop its handle. *)
Definition stop : Task unit :=
  a <- read abortController ;;
  match a with
  | Some _ => modify (emit Abort) ;; setAbortController None
  | None => ret tt
  end.

(** A suspension point: while the task awaits, [stop] is called or not. *)
Definition suspended (stopped : bool) : Task unit := when stopped stop.

(** [nanoid()] *)
Definition newId : Task string :=
  n <- read nanoids ;;
  modify (with_nanoids (S n)) ;;
  ret (nanoid n).

(** The [messages] property of the request body. *)
Definition sentMessages (messagesSnapshot : list Message) : JSON :=
  match sendExtraMessageFields options with
  | Some true => JArr (allFields <$> messagesSnapshot)
  | _ => JArr (roleAndContent <$> messagesSnapshot)
  end.

(** The argument of [JSON.stringify]. *)
Definition requestBody (messagesSnapshot : list Message)
    (ro : option RequestOptions) : Obj :=
  spread (spread [("messages", sentMessages messagesSnapshot)] (o_body options))
         (ro ≫= ro_body).

(** [{ ...headers, ...options?.headers }]: the headers of the call win. *)
Definition mergeHeaders (ro : option RequestOptions) : gmap string string :=
  default ∅ (ro ≫= ro_headers) ∪ default ∅ (headers options).

Definition request (messagesSnapshot : list Message)
    (ro : option RequestOptions) : Request :=
  {| url := api;
     method := "POST";
     payload := requestBody messagesSnapshot ro;
     req_headers := mergeHeaders ro;
     req_credentials := credentials options |}.

(** [await fetch(api, ...)] *)
Definition fetch (req : Request) (net : Network) : Task Response :=
  modify (emit (Fetch req)) ;;
  suspended (stopDuringFetch net) ;;
  match fetched net with
  | inl err => throw err
  | inr res => ret res
  end.

(** The assistant message written for the reply read so far. *)
Definition reply (replyId : string) (now : Z) (result : string) : Message :=
  {| id := replyId; createdAt := Some now; content := result; role := assistant |}.

(** The [while (true)] loop over [reader.read()], by recursion on the
    chunks the reader still has to deliver. *)
Fixpoint readAll (messagesSnapshot : list Message) (replyId : string) (t : Z)
    (stopAtEnd : bool) (ending : option Err)
    (decoder : Decoder) (result : string)
    (pending : list (bool * Uint8Array)) : Task string :=
  match pending with
  | [] =>
      suspended stopAtEnd ;;
      match ending with
      | None => ret result
      | Some err => throw err
      end
  | (stopped, value) :: pending' =>
      suspended stopped ;;
      let '(decoder', s) := decode decoder value in
      let result' := result +:+ s in
      mutate (messagesSnapshot ++ [reply replyId t result']) ;;
      a <- read abortController ;;
      match a with
      | None => modify (emit ReaderCancel) ;; ret result'
      | Some _ =>
          readAll messagesSnapshot replyId t stopAtEnd ending decoder' result' pending'
      end
  end.

(** [mutate(previousMessages.data)] when the snapshot taken before the
    request has status [success]. *)
Definition restore (previousMessages : MutationResult) : Task unit :=
  match previousMessages with
  | Success data => mutate data
  | _ => ret tt
  end.

(** [onFinish(m)] and [onError(err)], for hooks that are configured. *)
Definition callOnFinish (w : Surroundings) (m : Message) : Task unit :=
  match finishThrows w m with
  | Some thrown => modify (emit (CallOnFinish m)) ;; throw thrown
  | None => modify (emit (CallOnFinish m))
  end.

Definition callOnError (w : Surroundings) (err : Err) : Task unit :=
  match errorThrows w err with
  | Some thrown => modify (emit (CallOnError err)) ;; throw thrown
  | None => modify (emit (CallOnError err))
  end.

(** The body of the [try] block of [triggerRequest]. *)
Definition attemptIn (w : Surroundings) (messagesSnapshot : list Message)
    (ro : option RequestOptions) (net : Network) : Task Settled :=
  setError None ;;
  setIsLoading true ;;
  setAbortController (Some NewAbortController) ;;
  previousMessages <- chatApiStore_get ;;
  mutate messagesSnapshot ;;
  res <- try_catch (fetch (request messagesSnapshot ro) net)
           (fun err => restore previousMessages ;; throw err) ;;
  match onResponse options with
  | Some hook =>
      modify (emit CallOnResponse) ;;
      suspended (stopDuringOnResponse net) ;;
      match hook res with
      | Some err => throw err
      | None => ret tt
      end
  | None => ret tt
  end ;;
  if negb (ok res) then
    restore previousMessages ;;
    suspended (stopDuringText net) ;;
    throw (Error (if decide (text res = "")
                  then "Failed to fetch the chat response."
                  else text res))
  else
    match body res with
    | None => throw (Error "The response body is empty.")
    | Some stream =>
        let createdAt := now net in
        replyId <- newId ;;
        result <- readAll messagesSnapshot replyId createdAt
                    (stopDuringLastRead stream) (lastRead stream)
                    createChunkDecoder "" (chunks stream) ;;
        when (onFinish options)
             (callOnFinish w (reply replyId createdAt result)) ;;
        setAbortController None ;;
        ret (Text result)
    end.

(** The [try] block when the hooks return and every value thrown is an
    object: [attemptIn quiet], with the calls of the hooks reduced to
    their record in the trace. *)
Definition attempt (messagesSnapshot : list Message)
    (ro : option RequestOptions) (net : Network) : Task Settled :=
  Eval cbv beta iota delta [attemptIn callOnFinish finishThrows quiet] in
  attemptIn quiet messagesSnapshot ro net.

(** The [catch] block of [triggerRequest]. *)
Definition recoverIn (w : Surroundings) (err : Err) : Task Settled :=
  if nullish w err then throw NameOfNullish
  else if decide (name err = "AbortError") then
    setAbortController None ;;
    ret Null
  else
    when (onError options && instanceofError err) (callOnError w err) ;;
    setError (Some err) ;;
    ret Undefined.

(** The [catch] block when the hooks return and every value thrown is an
    object: [recoverIn quiet]. *)
Definition recover (err : Err) : Task Settled :=
  Eval cbv beta iota delta [recoverIn callOnError errorThrows nullish quiet] in
  recoverIn quiet err.

Definition triggerRequestIn (w : Surroundings) (messagesSnapshot : list Message)
    (ro : option RequestOptions) (net : Network) : Task Settled :=
  try_finally
    (try_catch (attemptIn w messagesSnapshot ro net) (recoverIn w))
    (setIsLoading false).

(** [triggerRequest] when the hooks return and every value thrown is an
    object: [triggerRequestIn quiet]. *)
Definition triggerRequest (messagesSnapshot : list Message)
    (ro : option RequestOptions) (net : Network) : Task Settled :=
  try_finally
    (try_catch (attempt messagesSnapshot ro net) recover)
    (setIsLoading false).

(** [append]: give the message an id when it has none (or an empty one)
    and submit the current list extended with it. *)
Definition appendIn (w : Surroundings) (m : CreateMessage)
    (ro : option RequestOptions) (net : Network) : Task Settled :=
  i <- match cm_id m with
       | Some i => if decide (i = "") then newId else ret i
       | None => newId
       end ;;
  current <- read messages ;;
  triggerRequestIn w
    (default [] current
       ++ [{| id := i; createdAt := cm_createdAt m;
              content := cm_content m; role := cm_role m |}])
    ro net.

(** [append] when the hooks return and every value thrown is an object:
    [appendIn quiet]. *)
Definition append (m : CreateMessage) (ro : option RequestOptions)
    (net : Network) : Task Settled :=
  i <- match cm_id m with
       | Some i => if decide (i = "") then newId else ret i
       | None => newId
       end ;;
  current <- read messages ;;
  triggerRequest
    (default [] current
       ++ [{| id := i; createdAt := cm_createdAt m;
              content := cm_content m; role := cm_role m |}])
    ro net.

(** [reload] *)
Definition reloadIn (w : Surroundings) (ro : option RequestOptions)
    (net : Network) : Task Settled :=
  current <- read messages ;;
  match current with
  | None => ret Null
  | Some messagesSnapshot =>
      match last messagesSnapshot with
      | None => ret Null
      | Some lastMessage =>
          if decide (role lastMessage = assistant) then
            triggerRequestIn w
              (take (length messagesSnapshot - 1) messagesSnapshot) ro net
          else
            triggerRequestIn w messagesSnapshot ro net
      end
  end.

(** [reload] when the hooks return and every value thrown is an object:
    [reloadIn quiet]. *)
Definition reload (ro : option RequestOptions) (net : Network) : Task Settled :=
  current <- read messages ;;
  match current with
  | None => ret Null
  | Some messagesSnapshot =>
      match last messagesSnapshot with
      | None => ret Null
      | Some lastMessage =>
          if decide (role lastMessage = assistant) then
            triggerRequest (take (length messagesSnapshot - 1) messagesSnapshot) ro net
          else
            triggerRequest messagesSnapshot ro net
      end
  end.

(** [setMessages] *)
Definition setMessages (l : list Message) : Task unit := mutate l.

(** The fetcher of [chatApiStore]: [store[key] ?? []]. *)
Definition storeGet (k : string) (st : State) : list Message :=
  default [] (store st !! k).


(** [handleSubmit], for the value [input] of the input signal and the date
    [new Date()] gives: the new value of the input and the state.  The
    call of [append] is not awaited by the handler; its run is followed
    to its end here, and it does not read the input. *)
Definition handleSubmit (input : string) (date : Z) (net : Network)
    (st : State) : string * State :=
  if decide (input = "") then (input, st)
  else
    ("", (append {| cm_id := None; cm_createdAt := Some date;
                    cm_content := input; cm_role := user |} None net st).2).

End useChat.

End UseChat.

Import UseChat.

(** ** What a stream delivers *)

Section streams.
Context `{Utils}.

(** The texts the decoder returns for successive chunks. *)
Fixpoint decoded (decoder : Decoder) (values : list Uint8Array) : list string :=
  match values with
  | [] => []
  | value :: values' =>
      let '(decoder', s) := decode decoder value in
      s :: decoded decoder' values'
  end.

(** The successive values of [result] when the texts are appended. *)
Fixpoint accumulated (result : string) (texts : list string) : list string :=
  match texts with
  | [] => []
  | s :: texts' => (result +:+ s) :: accumulated (result +:+ s) texts'
  end.

(** The chunks the loop reads: it stops after the first chunk whose read
    ends with the handle cleared ([live] tells whether the handle is
    still there when the loop is entered). *)
Fixpoint delivered (live : bool) (pending : list (bool * Uint8Array)) : list Uint8Array :=
  match pending with
  | [] => []
  | (stopped, value) :: pending' =>
      value :: (if live && negb stopped then delivered true pending' else [])
  end.

(** Whether the loop gets to the last read. *)
Fixpoint exhausted (live : bool) (pending : list (bool * Uint8Array)) : bool :=
  match pending with
  | [] => true
  | (stopped, _) :: pending' => live && negb stopped && exhausted true pending'
  end.

End streams.

(** The texts put end to end: [texts.join('')]. *)
Definition joined (texts : list string) : string := foldr String.append "" texts.

(** [abortController !== null] *)
Definition isLive (st : State) : bool :=
  match abortController st with Some _ => true | None => false end.

(** ** Sample data *)

(** Utilities for streams of one byte per character, where no character
    spans two reads, and ids numbered in the order they are drawn. *)
Definition byteUtils : Utils :=
  {| Decoder := unit;
     createChunkDecoder := tt;
     decode := fun _ value => (tt, String.string_of_list_byte value);
     nanoid := fun n => "reply-" +:+ pretty n |}.

(** The hook of conversation [c] at the default endpoint, with both
    reporting hooks configured. *)
Definition chat : UseChatOptions :=
  {| o_api := None; o_id := Some "c"; initialMessages := None;
     sendExtraMessageFields := None; onResponse := None;
     onFinish := true; onError := true;
     credentials := None; headers := None; o_body := None |}.

(** The conversation is empty and no request is in flight. *)
Definition idle : State :=
  {| store := ∅;
     chatApiStore := {[ "/api/chat|c" := Success [] ]};
     error := None; isLoading := false; abortController := None;
     nanoids := 0; trace := [] |}.

(** The message of the user. *)
Definition hi : Message :=
  {| id := "m1"; createdAt := None; content := "hi"; role := user |}.

Definition bytes (s : string) : Uint8Array := String.list_byte_of_string s.

(** The endpoint answers with a success status and streams the chunks. *)
Definition streaming (cs : list (bool * Uint8Array)) (ending : option Err) : Network :=
  {| stopDuringFetch := false;
     fetched := inr {| ok := true; text := "";
                       body := Some {| chunks := cs;
                                       stopDuringLastRead := false;
                                       lastRead := ending |} |};
     stopDuringOnResponse := false;
     stopDuringText := false;
     now := 1700 |}.

(** The endpoint answers with [res]. *)
Definition answering (res : Response) : Network :=
  {| stopDuringFetch := false; fetched := inr res;
     stopDuringOnResponse := false; stopDuringText := false; now := 1700 |}.

(** [fetch] rejects with [err]. *)
Definition rejecting (stopped : bool) (err : Err) : Network :=
  {| stopDuringFetch := stopped; fetched := inl err;
     stopDuringOnResponse := false; stopDuringText := false; now := 1700 |}.


(** What [fetch] rejects with when the network is down. *)
Definition NetworkError : Err :=
  {| name := "TypeError"; message := "Failed to fetch"; instanceofError := true |}.

(** The reply of the assistant. *)
Definition hello : Message := reply "reply-0" 1700 "Hello".

(** The state once [Hello] has been streamed in answer to [hi]. *)
Definition answered : State :=
  (triggerRequest (H := byteUtils) chat 0 [hi] None
     (streaming [(false, bytes "He"); (false, bytes "llo")] None) idle).2.

(** A response hook that refuses every response. *)
Definition refusal : Err :=
  {| name := "Error"; message := "refused"; instanceofError := true |}.

(** The hook of conversation [c] with that response hook. *)
Definition guarded : UseChatOptions :=
  {| o_api := None; o_id := Some "c"; initialMessages := None;
     sendExtraMessageFields := None; onResponse := Some (fun _ => Some refusal);
     onFinish := true; onError := true;
     credentials := None; headers := None; o_body := None |}.

(** A response of success status that streams [He]. *)
Definition fine : Response :=
  {| ok := true; text := "";
     body := Some {| chunks := [(false, bytes "He")];
                     stopDuringLastRead := false; lastRead := None |} |}.


(** The hook of another conversation, [d], at the same endpoint. *)
Definition other : UseChatOptions :=
  {| o_api := None; o_id := Some "d"; initialMessages := None;
     sendExtraMessageFields := None; onResponse := None;
     onFinish := false; onError := false;
     credentials := None; headers := None; o_body := None |}.


(** A hook whose body option names the model, and a call that overrides it. *)
Definition tuned : UseChatOptions :=
  {| o_api := None; o_id := Some "c"; initialMessages := None;
     sendExtraMessageFields := None; onResponse := None;
     onFinish := false; onError := false;
     credentials := None; headers := None;
     o_body := Some [("model", JStr "small"); ("user", JStr "u1")] |}.

Definition override : RequestOptions :=
  {| ro_headers := None; ro_body := Some [("model", JStr "large")] |}.

(** What the user types next. *)
Definition thanks : CreateMessage :=
  {| cm_id := Some "m2"; cm_createdAt := None; cm_content := "thanks";
     cm_role := user |}.

(** A hook whose body option defines [messages] itself. *)
Definition relabelled : UseChatOptions :=
  {| o_api := None; o_id := Some "c"; initialMessages := None;
     sendExtraMessageFields := None; onResponse := None;
     onFinish := false; onError := false;
     credentials := None; headers := None;
     o_body := Some [("messages",
                      JArr [JObj [("id", JStr "m1"); ("role", JStr "user");
                                  ("content", JStr "hi")]])] |}.

(** What a hook that fails throws. *)
Definition hookFailure : Err :=
  {| name := "Error"; message := "the hook failed"; instanceofError := true |}.

(** [onError] throws whatever it is given. *)
Definition faulty : Surroundings :=
  {| finishThrows := fun _ => None;
     errorThrows := fun _ => Some hookFailure;
     nullish := fun _ => false |}.

(** [onFinish] throws whatever it is given. *)
Definition clumsy : Surroundings :=
  {| finishThrows := fun _ => Some hookFailure;
     errorThrows := fun _ => None;
     nullish := fun _ => false |}.

(** ** What a request does *)

Section request.
Context `{Utils} (options : UseChatOptions) (uniqueId : nat).

Local Abbreviation key := (key options uniqueId).
Local Abbreviation readAll := (readAll options uniqueId).
Local Abbreviation request := (request options).
Local Abbreviation attempt := (attempt options uniqueId).
Local Abbreviation triggerRequest := (triggerRequest options uniqueId).
Local Abbreviation attemptIn := (attemptIn options uniqueId).
Local Abbreviation triggerRequestIn := (triggerRequestIn options uniqueId).

(** What a stretch of a run does: the lists it writes to the store, the
    requests it issues, the messages it hands to [onFinish] and the number
    of ids it draws. *)
Record Effects := mkEffects {
  written : list (list Message);
  requested : list Request;
  finished : list Message;
  drawn : nat;
}.

(** No effect, the writes [ws] alone, and one stretch after another. *)
Definition nothing : Effects := mkEffects [] [] [] 0.

Definition wrote (ws : list (list Message)) : Effects := mkEffects ws [] [] 0.

Definition andThen (e1 e2 : Effects) : Effects :=
  mkEffects (written e1 ++ written e2) (requested e1 ++ requested e2)
            (finished e1 ++ finished e2) (drawn e1 + drawn e2).

(** [did e st st']: [st'] is [st] after the effects [e], with the error,
    the loading flag and the reports to [onError] untouched. *)
Record did (e : Effects) (st st' : State) : Prop := {
  did_store :
    store st' = foldl (fun m d => <[key := d]> m) (store st) (written e);
  did_chatApiStore :
    chatApiStore st' =
      foldl (fun m d => <[key := Success d]> m) (chatApiStore st) (written e);
  did_error : error st' = error st;
  did_isLoading : isLoading st' = isLoading st;
  did_nanoids : nanoids st' = (nanoids st + drawn e)%nat;
  did_writes : writes (trace st') = writes (trace st) ++ written e;
  did_requests : requests (trace st') = requests (trace st) ++ requested e;
  did_finishes : finishes (trace st') = finishes (trace st) ++ finished e;
  did_reports : reports (trace st') = reports (trace st);
}.

(** The state [triggerRequest] starts from once it has cleared the error,
    raised the loading flag and installed its cancellation handle. *)
Definition started (st : State) : State :=
  with_abortController (Some NewAbortController)
    (with_isLoading true (with_error None st)).

(** The snapshot [chatApiStore.get] takes before the request. *)
Definition previousMessages (st : State) : MutationResult :=
  default Pending (chatApiStore st !! key).

(** What [restore] writes. *)
Definition restored (previous : MutationResult) : list (list Message) :=
  match previous with
  | Success data => [data]
  | _ => []
  end.

(** Whether the handle is still in place when the stream is first read:
    [stop] was called neither while [fetch] nor while the response hook
    was awaited. *)
Definition liveAtStream (net : Network) : bool :=
  negb (stopDuringFetch net)
  && negb (match onResponse options with
           | Some _ => stopDuringOnResponse net
           | None => false
           end).

(** The texts of the reply after each chunk the loop reads. *)
Definition replies (net : Network) (stream : ReadableStream) : list string :=
  accumulated ""
    (decoded createChunkDecoder (delivered (liveAtStream net) (chunks stream))).

(** The completion and the effects of the [try] block in closed form,
    read off the answers of the environment; [attempt_did] below shows
    that [attempt] runs to exactly this. *)
Definition attempted (snapshot : list Message) (ro : option RequestOptions)
    (net : Network) (previous : MutationResult) (n : nat)
    : Completion Settled * Effects :=
  let req := request snapshot ro in
  match fetched net with
  | inl err => (Throw err, mkEffects (snapshot :: restored previous) [req] [] 0)
  | inr res =>
      match onResponse options ≫= (fun hook => hook res) with
      | Some err => (Throw err, mkEffects [snapshot] [req] [] 0)
      | None =>
          if negb (ok res) then
            (Throw (Error (if decide (text res = "")
                           then "Failed to fetch the chat response."
                           else text res)),
             mkEffects (snapshot :: restored previous) [req] [] 0)
          else
            match body res with
            | None =>
                (Throw (Error "The response body is empty."),
                 mkEffects [snapshot] [req] [] 0)
            | Some stream =>
                let rs := replies net stream in
                let result := default "" (last rs) in
                let ws :=
                  snapshot
                  :: ((fun r => snapshot ++ [reply (nanoid n) (now net) r]) <$> rs) in
                match
                  (if exhausted (liveAtStream net) (chunks stream)
                   then lastRead stream else None)
                with
                | Some err => (Throw err, mkEffects ws [req] [] 1)
                | None =>
                    (Return (Text result),
                     mkEffects ws [req]
                       (if onFinish options
                        then [reply (nanoid n) (now net) result] else [])
                       1)
                end
            end
      end
  end.

(** The number of calls of [abortController.abort()] in a trace. *)
Definition aborts (tr : list Event) : nat :=
  length (omap (fun ev => match ev with Abort => Some tt | _ => None end) tr).

(** The aborts signalled so far, plus one while a handle is in place. *)
Definition budget (st : State) : nat :=
  (aborts (trace st) + if isLive st then 1 else 0)%nat.

(** [spends t]: the task [t] signals an abort only by giving up the
    handle in place, and installs none. *)
Definition spends {A} (t : Task A) : Prop :=
  forall st, (budget (t st).2 <= budget st)%nat.

(** [grows t]: the task [t] only adds to the trace. *)
Definition grows {A} (t : Task A) : Prop :=
  forall st, exists evs, trace (t st).2 = trace st ++ evs.

(** [meets c e st0 r]: the run [r] completes as [c], having done [e]
    since [st0]. *)
Definition meets {A} (c : Completion A) (e : Effects) (st0 : State)
    (r : Completion A * State) : Prop :=
  r.1 = c /\ did e st0 r.2.

(** What the promise of [triggerRequest] settles to, given the completion
    of the [try] block. *)
Definition settled (c : Completion Settled) : Settled :=
  match c with
  | Return v => v
  | Throw err => if decide (name err = "AbortError") then Null else Undefined
  end.

(** The error the [catch] block records. *)
Definition surfaced (c : Completion Settled) : option Err :=
  match c with
  | Return _ => None
  | Throw err => if decide (name err = "AbortError") then None else Some err
  end.

(** The calls of [onError]. *)
Definition reported (c : Completion Settled) : list Err :=
  match surfaced c with
  | Some err => if onError options && instanceofError err then [err] else []
  | None => []
  end.

(** [ended c e st r]: the run [r] of [triggerRequest] from [st] is the
    one of a [try] block that completed as [c] and did [e]. *)
Record ended (c : Completion Settled) (e : Effects) (st : State)
    (r : Completion Settled * State) : Prop := {
  ended_result : r.1 = Return (settled c);
  ended_store :
    store r.2 = foldl (fun m d => <[key := d]> m) (store st) (written e);
  ended_chatApiStore :
    chatApiStore r.2 =
      foldl (fun m d => <[key := Success d]> m) (chatApiStore st) (written e);
  ended_error : error r.2 = surfaced c;
  ended_isLoading : isLoading r.2 = false;
  ended_nanoids : nanoids r.2 = (nanoids st + drawn e)%nat;
  ended_writes : writes (trace r.2) = writes (trace st) ++ written e;
  ended_requests : requests (trace r.2) = requests (trace st) ++ requested e;
  ended_finishes : finishes (trace r.2) = finishes (trace st) ++ finished e;
  ended_reports : reports (trace r.2) = reports (trace st) ++ reported c;
}.

(** ** Projections of traces *)

Lemma writes_snoc tr ev :
  writes (tr ++ [ev]) = writes tr ++ match ev with Mutate d => [d] | _ => [] end.
Proof. unfold writes. rewrite omap_app. by destruct ev. Qed.

Lemma requests_snoc tr ev :
  requests (tr ++ [ev]) = requests tr ++ match ev with Fetch r => [r] | _ => [] end.
Proof. unfold requests. rewrite omap_app. by destruct ev. Qed.

Lemma finishes_snoc tr ev :
  finishes (tr ++ [ev]) = finishes tr ++ match ev with CallOnFinish m => [m] | _ => [] end.
Proof. unfold finishes. rewrite omap_app. by destruct ev. Qed.

Lemma reports_snoc tr ev :
  reports (tr ++ [ev]) = reports tr ++ match ev with CallOnError e => [e] | _ => [] end.
Proof. unfold reports. rewrite omap_app. by destruct ev. Qed.

Ltac project :=
  repeat first
    [ rewrite writes_snoc | rewrite requests_snoc
    | rewrite finishes_snoc | rewrite reports_snoc ];
  cbn [app]; rewrite ?app_nil_r.

Lemma default_last_cons {A} (d x : A) l :
  default d (last (x :: l)) = default x (last l).
Proof.
  destruct l as [|y l]; [done |]. rewrite last_cons_cons.
  destruct (last (y :: l)) eqn:E; [done |]. by apply last_None in E.
Qed.

(** ** Strings and streams *)

Lemma append_cons a s1 s2 : String a s1 +:+ s2 = String a (s1 +:+ s2).
Proof. reflexivity. Qed.

Lemma append_nil_r s : s +:+ "" = s.
Proof. induction s as [|a s IH]; [done |]. by rewrite append_cons, IH. Qed.

Lemma append_assoc s1 s2 s3 : (s1 +:+ s2) +:+ s3 = s1 +:+ (s2 +:+ s3).
Proof. induction s1 as [|a s1 IH]; [done |]. by rewrite !append_cons, IH. Qed.

Lemma length_append s1 s2 :
  String.length (s1 +:+ s2) = (String.length s1 + String.length s2)%nat.
Proof.
  induction s1 as [|a s1 IH]; [done |].
  rewrite append_cons. cbn [String.length]. by rewrite IH.
Qed.

Lemma length_zero s : String.length s = 0%nat -> s = "".
Proof. by destruct s. Qed.

Lemma accumulated_length result texts :
  length (accumulated result texts) = length texts.
Proof.
  revert result. induction texts as [|s texts IH]; intros result; [done |].
  cbn. by rewrite IH.
Qed.

(** The last value of [result] is the start value followed by all texts. *)
Lemma accumulated_last result texts :
  default result (last (accumulated result texts)) = result +:+ joined texts.
Proof.
  revert result. induction texts as [|s texts IH]; intros result.
  - cbn. by rewrite append_nil_r.
  - cbn [accumulated]. rewrite default_last_cons, IH. cbn [joined foldr].
    by rewrite append_assoc.
Qed.

(** Each value of [result] is the one before followed by one more text. *)
Lemma accumulated_step result texts i r r' :
  accumulated result texts !! i = Some r ->
  accumulated result texts !! S i = Some r' ->
  exists s, texts !! S i = Some s /\ r' = r +:+ s.
Proof.
  revert result i. induction texts as [|s0 texts IH]; intros result i; [done |].
  cbn [accumulated]. destruct i as [|i].
  - cbn. intros [= <-]. destruct texts as [|s1 texts]; [done |].
    cbn. intros [= <-]. eauto.
  - cbn [lookup list_lookup]. apply IH.
Qed.

Lemma accumulated_head result texts r :
  accumulated result texts !! 0%nat = Some r ->
  exists s, texts !! 0%nat = Some s /\ r = result +:+ s.
Proof. destruct texts as [|s texts]; [done |]. cbn. intros [= <-]. eauto. Qed.

Lemma decoded_length decoder values :
  length (decoded decoder values) = length values.
Proof.
  revert decoder. induction values as [|v values IH]; intros decoder; [done |].
  cbn. destruct (decode decoder v). cbn. by rewrite IH.
Qed.


Lemma exhausted_unstopped pending :
  Forall (fun c => c.1 = false) pending -> exhausted true pending = true.
Proof. induction 1 as [|[? ?] ? ? ? IH]; [done |]. cbn in *. by subst. Qed.


(** With the handle already cleared, the first chunk is the only one read. *)
Lemma delivered_cleared stopped v post :
  delivered false ((stopped, v) :: post) = [v]
  /\ exhausted false ((stopped, v) :: post) = false.
Proof. done. Qed.

(** ** Object spread *)

Lemma get_assign_ne o k k' v : k' <> k -> get (assign o k' v) k = get o k.
Proof.
  intros Hk. induction o as [|[k0 v0] o IH]; cbn.
  - by rewrite decide_False.
  - destruct (decide (k0 = k')) as [-> |]; cbn.
    + by rewrite !decide_False.
    + by rewrite IH.
Qed.

(** Spreading an object that has no property [k] leaves [k] as it was. *)
Lemma get_spread o src k :
  get (default [] src) k = None -> get (spread o src) k = get o k.
Proof.
  unfold spread. generalize (default [] src) as l. clear src.
  intros l. revert o. induction l as [|[k' v] l IH]; intros o; [done |].
  cbn. destruct (decide (k' = k)); [done |]. intros Hl.
  by rewrite IH, get_assign_ne.
Qed.

(** ** The reading loop *)

Lemma did_nothing st : did nothing st st.
Proof. split; cbn; rewrite ?app_nil_r; auto. Qed.

Lemma did_stop st : did nothing st (stop st).2.
Proof.
  unfold stop, bind, read, modify, setAbortController.
  destruct (abortController st) eqn:E; cbn; [| apply did_nothing].
  split; cbn; project; auto.
Qed.

Lemma did_suspended stopped st : did nothing st (suspended stopped st).2.
Proof. destruct stopped; [apply did_stop | apply did_nothing]. Qed.

Lemma did_mutate data st : did (wrote [data]) st (mutate options uniqueId data st).2.
Proof. split; cbn; project; auto. Qed.

Lemma did_trans e1 e2 st1 st2 st3 :
  did e1 st1 st2 -> did e2 st2 st3 -> did (andThen e1 e2) st1 st3.
Proof.
  intros [] []. split; cbn [andThen written requested finished drawn];
    rewrite ?foldl_app, ?app_assoc; try congruence. lia.
Qed.

Lemma suspended_returns stopped st : (suspended stopped st).1 = Return tt.
Proof.
  destruct stopped; [| reflexivity]. unfold suspended, when, stop, bind, read.
  cbn. by destruct (abortController st).
Qed.

Lemma suspended_isLive stopped st :
  isLive (suspended stopped st).2 = isLive st && negb stopped.
Proof.
  unfold isLive, suspended, when, stop, bind, read, ret.
  destruct stopped; cbn; destruct (abortController st) eqn:E; cbn;
    by rewrite ?E.
Qed.

Lemma bind_suspended {A} stopped (k : unit -> Task A) st :
  bind (suspended stopped) k st = k tt (suspended stopped st).2.
Proof.
  unfold bind. pose proof (suspended_returns stopped st) as Hr.
  destruct (suspended stopped st) as [c st1]. cbn in Hr. by subst c.
Qed.

Lemma bind_modify {A} f (k : unit -> Task A) st :
  bind (modify f) k st = k tt (f st).
Proof. reflexivity. Qed.

Lemma bind_read {A B} (f : State -> A) (k : A -> Task B) st :
  bind (read f) k st = k (f st) st.
Proof. reflexivity. Qed.

Lemma bind_ret {A B} (a : A) (k : A -> Task B) st : bind (ret a) k st = k a st.
Proof. reflexivity. Qed.

Lemma bind_throw {A B} e (k : A -> Task B) st :
  bind (throw e) k st = (Throw e, st).
Proof. reflexivity. Qed.

Lemma bind_mutate {A} data (k : unit -> Task A) st :
  bind (mutate options uniqueId data) k st
  = k tt (mutate options uniqueId data st).2.
Proof. reflexivity. Qed.

Lemma mutate_abortController data st :
  abortController (mutate options uniqueId data st).2 = abortController st.
Proof. reflexivity. Qed.

Lemma foldl_insert_last {V} (f : list Message -> V) (m : gmap string V) ws :
  foldl (fun m d => <[key := f d]> m) m ws
  = match last ws with Some d => <[key := f d]> m | None => m end.
Proof.
  revert m. induction ws as [|w ws IH]; intros m; [done |].
  cbn [foldl]. rewrite IH. destruct ws as [|w' ws]; [done |].
  rewrite last_cons_cons.
  destruct (last (w' :: ws)) eqn:E; [by rewrite insert_insert_eq |].
  by apply last_None in E.
Qed.

Lemma readAll_did snapshot rid t stopAtEnd ending pending :
  forall decoder result st,
    let rs := accumulated result (decoded decoder (delivered (isLive st) pending)) in
    let run := readAll snapshot rid t stopAtEnd ending decoder result pending st in
    did (wrote ((fun r => snapshot ++ [reply rid t r]) <$> rs)) st run.2 /\
    run.1 = (if exhausted (isLive st) pending
             then match ending with
                  | None => Return (default result (last rs))
                  | Some err => Throw err
                  end
             else Return (default result (last rs))).
Proof.
  induction pending as [|[stopped value] pending IH]; intros decoder result st.
  - cbn. rewrite bind_suspended.
    pose proof (did_suspended stopAtEnd st) as Hw.
    by destruct ending.
  - cbn [UseChat.readAll delivered exhausted]. rewrite bind_suspended.
    pose proof (did_suspended stopped st) as Hw.
    rewrite <- (suspended_isLive stopped st).
    set (st1 := (suspended stopped st).2) in *. clearbody st1.
    cbn [decoded]. destruct (decode decoder value) as [decoder' s].
    cbn [accumulated fmap list_fmap].
    rewrite bind_mutate, bind_read.
    pose proof (did_mutate (snapshot ++ [reply rid t (result +:+ s)]) st1) as Hm.
    pose proof (mutate_abortController (snapshot ++ [reply rid t (result +:+ s)]) st1)
      as Ha.
    set (st2 := (mutate _ _ _ st1).2) in *. clearbody st2.
    pose proof (did_trans _ _ _ _ _ Hw Hm) as Hwm.
    unfold isLive. rewrite <- Ha.
    destruct (abortController st2) eqn:E.
    + specialize (IH decoder' (result +:+ s) st2). cbn zeta in IH.
      unfold isLive in IH. rewrite E in IH. destruct IH as [IHw IHr].
      split.
      * apply (did_trans _ _ _ _ _ Hwm IHw).
      * rewrite IHr. cbn [andb]. by rewrite default_last_cons.
    + cbn [andb decoded accumulated fmap list_fmap last default].
      rewrite bind_modify. cbn [ret fst snd]. split; [| done].
      apply (did_trans _ nothing _ _ _ Hwm). split; cbn; project; auto.
Qed.

(** ** One attempt, path by path *)

Lemma bind_fetch_catch {A} req net (h : Err -> Task Response)
    (k : Response -> Task A) st :
  bind (try_catch (fetch req net) h) k st
  = match fetched net with
    | inl err => bind (h err) k (suspended (stopDuringFetch net) (emit (Fetch req) st)).2
    | inr res => k res (suspended (stopDuringFetch net) (emit (Fetch req) st)).2
    end.
Proof.
  unfold bind at 1. unfold try_catch, fetch.
  rewrite bind_modify, bind_suspended. by destruct (fetched net).
Qed.

Lemma did_emit ev st :
  match ev with Mutate _ | CallOnError _ => False | _ => True end ->
  did (mkEffects [] (match ev with Fetch r => [r] | _ => [] end)
                 (match ev with CallOnFinish m => [m] | _ => [] end) 0)
      st (emit ev st).
Proof.
  intros Hev. destruct ev; try done; split; cbn; project; auto.
Qed.

Lemma did_newId st : did (mkEffects [] [] [] 1) st (newId st).2.
Proof. split; cbn; rewrite ?app_nil_r; auto. lia. Qed.

Lemma did_restore previous st :
  did (wrote (restored previous)) st (restore options uniqueId previous st).2.
Proof. destruct previous; cbn; first [apply did_mutate | apply did_nothing]. Qed.

Lemma restore_returns previous st :
  (restore options uniqueId previous st).1 = Return tt.
Proof. by destruct previous. Qed.

Lemma bind_restore {A} previous (k : unit -> Task A) st :
  bind (restore options uniqueId previous) k st
  = k tt (restore options uniqueId previous st).2.
Proof. by destruct previous. Qed.

Lemma bind_newId {A} (k : string -> Task A) st :
  bind newId k st = k (nanoid (nanoids st)) (newId st).2.
Proof. reflexivity. Qed.

Lemma did_clear st : did nothing st (with_abortController None st).
Proof. split; cbn; rewrite ?app_nil_r; auto. Qed.

Lemma did_eq e e' st st' : did e st st' -> e = e' -> did e' st st'.
Proof. by intros ? <-. Qed.

Lemma bind_assoc {A B C} (t : Task A) (k1 : A -> Task B) (k2 : B -> Task C) st :
  bind (bind t k1) k2 st = bind t (fun a => bind (k1 a) k2) st.
Proof. unfold bind. by destruct (t st) as [[] ?]. Qed.

Lemma bind_unfold {A B} (t : Task A) (k : A -> Task B) st :
  bind t k st
  = match t st with
    | (Return a, st') => k a st'
    | (Throw e, st') => (Throw e, st')
    end.
Proof. reflexivity. Qed.

Ltac run :=
  repeat first
    [ rewrite bind_assoc | rewrite bind_modify | rewrite bind_read
    | rewrite bind_mutate | rewrite bind_suspended | rewrite bind_restore
    | rewrite bind_newId | rewrite bind_ret | rewrite bind_throw
    | progress cbn beta ].

Ltac history :=
  lazymatch goal with
  | |- did _ ?st ?st => apply did_nothing
  | |- did _ _ (restore _ _ _ _).2 =>
      eapply did_trans; [| apply did_restore]; history
  | |- did _ _ (suspended _ _).2 =>
      eapply did_trans; [| apply did_suspended]; history
  | |- did _ _ (mutate _ _ _ _).2 =>
      eapply did_trans; [| apply did_mutate]; history
  | |- did _ _ (newId _).2 =>
      eapply did_trans; [| apply did_newId]; history
  | |- did _ _ (emit _ _) =>
      eapply did_trans; [| by apply did_emit]; history
  | |- did _ _ (with_abortController None _) =>
      eapply did_trans; [| apply did_clear]; history
  | |- did _ _ ?s =>
      lazymatch goal with
      | Hs : did _ _ s |- _ =>
          first [exact Hs | eapply did_trans; [| exact Hs]; history]
      end
  end.

Ltac tally :=
  eapply did_eq; [history |];
  unfold andThen, nothing, wrote;
  cbn [written requested finished drawn app Nat.add];
  f_equal; rewrite ?app_nil_r; auto.

Lemma attempt_did snapshot ro net st :
  meets (attempted snapshot ro net (previousMessages st) (nanoids st)).1
        (attempted snapshot ro net (previousMessages st) (nanoids st)).2
        (started st) (attempt snapshot ro net st).
Proof.
  unfold attempt, UseChat.attempt, setError, setIsLoading, setAbortController,
    chatApiStore_get.
  rewrite !bind_modify, bind_read, bind_mutate.
  fold (started st). change (default Pending _) with (previousMessages st).
  rewrite bind_fetch_catch. unfold attempted.
  destruct (fetched net) as [err | res].
  - run. split; [done |]. cbn [fst snd]. tally.
  - set (st3 := (suspended _ _).2).
    assert (did (mkEffects [snapshot] [request snapshot ro] [] 0) (started st) st3)
      as Hst3 by (subst st3; tally).
    assert (isLive st3 = negb (stopDuringFetch net)) as Hl3
      by (subst st3; by rewrite suspended_isLive).
    clearbody st3.
    match goal with
    | |- meets (match _ with Some _ => _ | None => ?T end).1 _ _ (bind _ ?k _) =>
        set (summary := T); set (rest := k)
    end.
    assert (forall st4,
      did (mkEffects [snapshot] [request snapshot ro] [] 0) (started st) st4 ->
      isLive st4 = liveAtStream net ->
      meets summary.1 summary.2 (started st) (rest tt st4)) as Hrest.
    { intros st4 Hst4 Hl4. subst summary rest. cbn beta.
      destruct (ok res); cbn [negb].
      - destruct (body res) as [stream |]; [| by run].
        run.
        assert (nanoids st4 = nanoids st) as ->
          by (rewrite (did_nanoids _ _ _ Hst4); cbn; lia).
        pose proof (readAll_did snapshot (nanoid (nanoids st)) (now net)
                      (stopDuringLastRead stream) (lastRead stream) (chunks stream)
                      createChunkDecoder "" (newId st4).2) as [Hd Hr].
        cbn zeta in Hd, Hr.
        change (isLive (newId st4).2) with (isLive st4) in Hd, Hr.
        rewrite Hl4 in Hd, Hr. fold (replies net stream) in Hd, Hr.
        unfold bind at 1.
        destruct (readAll _ _ _ _ _ _ _ _ _) as [c st6].
        cbn [fst snd] in Hd, Hr. subst c.
        destruct (exhausted _ _); [destruct (lastRead stream) |].
        + split; [done |]. cbn [fst snd]. tally.
        + destruct (onFinish options); unfold when; run;
            (split; [done |]); unfold ret; cbn [fst snd]; tally.
        + destruct (onFinish options); unfold when; run;
            (split; [done |]); unfold ret; cbn [fst snd]; tally.
      - run. split; [done |]. unfold throw. cbn [fst snd]. tally. }
    clearbody summary rest.
    unfold liveAtStream in Hrest.
    destruct (onResponse options) as [hook |]; cbn [mbind option_bind].
    + run. destruct (hook res) as [err |]; run.
      * split; [done |]. cbn [fst snd]. tally.
      * apply Hrest; [tally |].
        rewrite suspended_isLive. unfold isLive in *. cbn. by rewrite Hl3.
    + run. apply Hrest; [done |]. by rewrite Hl3, andb_true_r.
Qed.

(** ** The whole request *)

Lemma triggerRequest_ended snapshot ro net st :
  ended (attempted snapshot ro net (previousMessages st) (nanoids st)).1
        (attempted snapshot ro net (previousMessages st) (nanoids st)).2
        st (triggerRequest snapshot ro net st).
Proof.
  destruct (attempt_did snapshot ro net st) as [Hc Hd].
  destruct (attempted _ _ _ _ _) as [c e]. cbn [fst snd] in *.
  unfold triggerRequest, UseChat.triggerRequest, try_finally, try_catch.
  destruct (attempt snapshot ro net st) as [c' st1].
  cbn [fst snd] in *. subst c'. destruct Hd.
  destruct c as [v | err];
    [| unfold recover; destruct (decide (name err = "AbortError")) eqn:E].
  - split; cbn; rewrite ?app_nil_r; auto.
  - split; unfold reported, surfaced, settled; cbn; rewrite ?E, ?app_nil_r; auto.
  - destruct (onError options && instanceofError err) eqn:E';
      split; unfold reported, surfaced, settled; cbn; rewrite ?E, ?E';
      project; auto.
    by rewrite did_reports0.
Qed.

Lemma attempted_requested snapshot ro net previous n :
  requested (attempted snapshot ro net previous n).2 = [request snapshot ro].
Proof.
  unfold attempted. destruct (fetched net) as [err | res]; [done |].
  destruct (onResponse options ≫= _); [done |].
  destruct (negb (ok res)); [done |].
  destruct (body res) as [stream |]; [| done].
  by destruct (if exhausted _ _ then _ else _).
Qed.

Lemma triggerRequest_requests snapshot ro net st :
  requests (trace (triggerRequest snapshot ro net st).2)
  = requests (trace st) ++ [request snapshot ro].
Proof.
  rewrite (ended_requests _ _ _ _ (triggerRequest_ended snapshot ro net st)).
  by rewrite attempted_requested.
Qed.

Lemma triggerRequest_returns snapshot ro net st :
  exists v, (triggerRequest snapshot ro net st).1 = Return v.
Proof.
  eexists. apply (ended_result _ _ _ _ (triggerRequest_ended snapshot ro net st)).
Qed.

(** *** Hooks that throw *)

(** The operations for hooks that return are the general ones run in
    [quiet] surroundings. *)
Lemma triggerRequest_quiet snapshot ro net :
  triggerRequestIn quiet snapshot ro net = triggerRequest snapshot ro net.
Proof. reflexivity. Qed.

Lemma append_quiet m ro net :
  appendIn options uniqueId quiet m ro net = append options uniqueId m ro net.
Proof. reflexivity. Qed.

Lemma reload_quiet ro net :
  reloadIn options uniqueId quiet ro net = reload options uniqueId ro net.
Proof. reflexivity. Qed.

(** With hooks that may throw, the [try] block runs as with hooks that
    return, unless [onFinish] is called and throws: then it fails with
    what the hook threw, before the handle is cleared. *)
Lemma attemptIn_cases w snapshot ro net st :
  attemptIn w snapshot ro net st = attempt snapshot ro net st
  \/ exists m thrown,
       onFinish options = true
       /\ finishThrows w m = Some thrown
       /\ (attempt snapshot ro net st).1 = Return (Text (content m))
       /\ (attemptIn w snapshot ro net st).1 = Throw thrown
       /\ (attempt snapshot ro net st).2
           = with_abortController None (attemptIn w snapshot ro net st).2.
Proof.
  unfold attemptIn, attempt, UseChat.attemptIn, UseChat.attempt,
    setError, setIsLoading, setAbortController, chatApiStore_get.
  rewrite !bind_modify, !bind_read, !bind_mutate, !bind_fetch_catch.
  destruct (fetched net) as [err | res]; [run; by left |].
  destruct (onResponse options) as [hook |]; run;
    [destruct (hook res); run; [by left |] |];
    (destruct (ok res); cbn [negb]; [| run; by left]);
    (destruct (body res) as [stream |]; [| run; by left]);
    run; rewrite !bind_unfold;
    (destruct (readAll _ _ _ _ _ _ _ _ _) as [[result | err] st6]; [| by left]);
    (destruct (onFinish options); unfold when; run; [| by left]);
    unfold callOnFinish;
    (destruct (finishThrows w _) as [thrown |] eqn:Ef; run; [right | by left]);
    eexists _, _; (split; [done |]); (split; [exact Ef |]); done.
Qed.

Lemma nanoids_suspended stopped st :
  nanoids (suspended stopped st).2 = nanoids st.
Proof. rewrite (did_nanoids _ _ _ (did_suspended stopped st)). cbn. lia. Qed.

(** [onFinish] is handed the reply with the text the [try] block would
    return; when it throws, the block fails with what it threw. *)
Lemma attemptIn_finish w snapshot ro net st result thrown :
  onFinish options = true ->
  (attempt snapshot ro net st).1 = Return (Text result) ->
  finishThrows w (reply (nanoid (nanoids st)) (now net) result) = Some thrown ->
  (attemptIn w snapshot ro net st).1 = Throw thrown.
Proof.
  intros Hon.
  unfold attemptIn, attempt, UseChat.attemptIn, UseChat.attempt,
    setError, setIsLoading, setAbortController, chatApiStore_get.
  rewrite !bind_modify, !bind_read, !bind_mutate, !bind_fetch_catch.
  destruct (fetched net) as [err | res]; [by run |].
  destruct (onResponse options) as [hook |]; run;
    [destruct (hook res); run; [done |] |];
    (destruct (ok res); cbn [negb]; [| by run]);
    (destruct (body res) as [stream |]; [| by run]);
    run; rewrite !bind_unfold;
    repeat (rewrite nanoids_suspended;
            cbn [nanoids emit mutate modify snd with_chatApiStore with_store
                 with_abortController with_isLoading with_error]);
    (destruct (readAll _ _ _ _ _ _ _ _ _) as [[result' | err] st6]; [| done]);
    rewrite Hon; unfold when; run; unfold callOnFinish;
    intros [= ->] ->; by run.
Qed.

Lemma attemptIn_cleared w snapshot ro net st :
  with_abortController None (attemptIn w snapshot ro net st).2
  = with_abortController None (attempt snapshot ro net st).2.
Proof.
  destruct (attemptIn_cases w snapshot ro net st)
    as [-> | (m & thrown & _ & _ & _ & _ & ->)]; done.
Qed.

Lemma attemptIn_did w snapshot ro net st :
  did (attempted snapshot ro net (previousMessages st) (nanoids st)).2
      (started st) (attemptIn w snapshot ro net st).2.
Proof.
  destruct (attempt_did snapshot ro net st) as [_ [? ? ? ? ? ? ? ? ?]].
  pose proof (attemptIn_cleared w snapshot ro net st) as Hc.
  set (a := attemptIn w snapshot ro net st) in *.
  assert (store a.2 = store (attempt snapshot ro net st).2) as Hs
    by exact (f_equal store Hc).
  assert (chatApiStore a.2 = chatApiStore (attempt snapshot ro net st).2) as Hm
    by exact (f_equal chatApiStore Hc).
  assert (error a.2 = error (attempt snapshot ro net st).2) as He
    by exact (f_equal error Hc).
  assert (isLoading a.2 = isLoading (attempt snapshot ro net st).2) as Hl
    by exact (f_equal isLoading Hc).
  assert (nanoids a.2 = nanoids (attempt snapshot ro net st).2) as Hn
    by exact (f_equal nanoids Hc).
  assert (trace a.2 = trace (attempt snapshot ro net st).2) as Ht
    by exact (f_equal trace Hc).
  split; by rewrite ?Hs, ?Hm, ?He, ?Hl, ?Hn, ?Ht.
Qed.

(** What the [catch] and [finally] blocks make of the [try] block. *)
Lemma triggerRequestIn_caught w snapshot ro net st :
  let a := attemptIn w snapshot ro net st in
  triggerRequestIn w snapshot ro net st
  = match a.1 with
    | Return v => (Return v, with_isLoading false a.2)
    | Throw err =>
        if nullish w err then (Throw NameOfNullish, with_isLoading false a.2)
        else if decide (name err = "AbortError") then
          (Return Null, with_isLoading false (with_abortController None a.2))
        else if onError options && instanceofError err then
          match errorThrows w err with
          | Some thrown =>
              (Throw thrown, with_isLoading false (emit (CallOnError err) a.2))
          | None =>
              (Return Undefined,
               with_isLoading false
                 (with_error (Some err) (emit (CallOnError err) a.2)))
          end
        else (Return Undefined, with_isLoading false (with_error (Some err) a.2))
    end.
Proof.
  intros a. subst a.
  unfold triggerRequestIn, UseChat.triggerRequestIn, try_finally, try_catch.
  destruct (attemptIn w snapshot ro net st) as [[v | err] st1]; [done |].
  cbn [fst snd]. unfold recoverIn.
  destruct (nullish w err); [done |].
  destruct (decide (name err = "AbortError")); [done |].
  destruct (onError options && instanceofError err); [| done].
  unfold when, callOnError. by destruct (errorThrows w err).
Qed.

(** Whatever the hooks do, a request leaves the store, the cache and the
    record of writes and requests as its [try] block left them, and the
    loading flag lowered. *)
Lemma triggerRequestIn_kept w snapshot ro net st :
  let a := attemptIn w snapshot ro net st in
  let r := triggerRequestIn w snapshot ro net st in
  store r.2 = store a.2
  /\ chatApiStore r.2 = chatApiStore a.2
  /\ writes (trace r.2) = writes (trace a.2)
  /\ requests (trace r.2) = requests (trace a.2)
  /\ finishes (trace r.2) = finishes (trace a.2)
  /\ nanoids r.2 = nanoids a.2
  /\ isLoading r.2 = false.
Proof.
  intros a r. subst r. rewrite triggerRequestIn_caught. fold a.
  destruct a.1 as [v | err]; [done |].
  destruct (nullish w err); [done |].
  destruct (decide (name err = "AbortError")); [done |].
  destruct (onError options && instanceofError err); [| done].
  destruct (errorThrows w err); cbn; project; by rewrite ?app_nil_r.
Qed.

Lemma ended_store_key c e st r :
  ended c e st r ->
  store r.2 !! key
  = match last (written e) with Some d => Some d | None => store st !! key end.
Proof.
  intros E. rewrite (ended_store _ _ _ _ E).
  rewrite (foldl_insert_last (fun d => d)).
  destruct (last (written e)); [apply lookup_insert_eq | done].
Qed.

Lemma ended_chatApiStore_key c e st r :
  ended c e st r ->
  chatApiStore r.2 !! key
  = match last (written e) with
    | Some d => Some (Success d)
    | None => chatApiStore st !! key
    end.
Proof.
  intros E. rewrite (ended_chatApiStore _ _ _ _ E).
  rewrite (foldl_insert_last Success).
  destruct (last (written e)); [apply lookup_insert_eq | done].
Qed.

Lemma last_written (snapshot : list Message) (f : string -> list Message) rs :
  last (snapshot :: (f <$> rs))
  = Some (match last rs with Some r => f r | None => snapshot end).
Proof. rewrite last_cons, fmap_last. by destruct (last rs). Qed.

(** The summary of a request whose response passes the hook, is of
    success status and has a body. *)
Lemma attempted_stream snapshot ro net previous n res stream :
  fetched net = inr res ->
  (forall hook, onResponse options = Some hook -> hook res = None) ->
  ok res = true ->
  body res = Some stream ->
  attempted snapshot ro net previous n
  = let rs := replies net stream in
    let result := default "" (last rs) in
    let ws :=
      snapshot :: ((fun r => snapshot ++ [reply (nanoid n) (now net) r]) <$> rs) in
    match (if exhausted (liveAtStream net) (chunks stream)
           then lastRead stream else None) with
    | Some err => (Throw err, mkEffects ws [request snapshot ro] [] 1)
    | None =>
        (Return (Text result),
         mkEffects ws [request snapshot ro]
           (if onFinish options then [reply (nanoid n) (now net) result] else [])
           1)
    end.
Proof.
  intros Hf Hh Hok Hb. unfold attempted. rewrite Hf.
  assert (onResponse options ≫= (fun hook => hook res) = None) as ->.
  { destruct (onResponse options) as [hook |]; [by apply Hh | done]. }
  by rewrite Hok, Hb.
Qed.

Lemma replies_last net stream :
  default "" (last (replies net stream))
  = joined (decoded createChunkDecoder
              (delivered (liveAtStream net) (chunks stream))).
Proof. unfold replies. by rewrite accumulated_last. Qed.

Lemma replies_length net stream :
  length (replies net stream)
  = length (delivered (liveAtStream net) (chunks stream)).
Proof. unfold replies. by rewrite accumulated_length, decoded_length. Qed.



(** ** The claims *)


(** C6. [reload] on an empty list resolves [null] and leaves the state,
    hence the trace of requests, as it was; on a list whose last message
    is from the assistant it submits the list without that message; on
    any other list it submits the list as it is. *)
Theorem reload_cases ro net st l :
  messages options uniqueId st = Some l ->
  (l = [] -> reload options uniqueId ro net st = (Return Null, st))
  /\ (forall init m, l = init ++ [m] -> role m = assistant ->
        reload options uniqueId ro net st = triggerRequest init ro net st
        /\ requests (trace (reload options uniqueId ro net st).2)
            = requests (trace st) ++ [request init ro])
  /\ (forall init m, l = init ++ [m] -> role m <> assistant ->
        reload options uniqueId ro net st = triggerRequest l ro net st
        /\ requests (trace (reload options uniqueId ro net st).2)
            = requests (trace st) ++ [request l ro]).
Proof.
  intros Hl. unfold reload. rewrite bind_read, Hl.
  split; [by intros -> |].
  split; intros init m -> Hm; rewrite last_snoc;
    destruct (decide (role m = assistant)); try done.
  - rewrite length_app, Nat.add_sub, take_app_length.
    split; [done |]. apply triggerRequest_requests.
  - split; [done |]. apply triggerRequest_requests.
Qed.

(** C10. When the response hook throws, the [try] block fails with that
    very error and nothing is written after the optimistic update: the
    submitted list stays in the store under the key, whatever the hooks
    [onFinish] and [onError] do.  The error becomes the value of the
    error accessor, unless it is named [AbortError], stands for [null] or
    [undefined], or is handed to an [onError] that throws. *)
Theorem hook_failure_keeps_snapshot w snapshot ro net st res hook err :
  fetched net = inr res ->
  onResponse options = Some hook ->
  hook res = Some err ->
  let r := triggerRequestIn w snapshot ro net st in
  (attemptIn w snapshot ro net st).1 = Throw err
  /\ store r.2 !! key = Some snapshot
  /\ storeGet key r.2 = snapshot
  /\ writes (trace r.2) = writes (trace st) ++ [snapshot]
  /\ (nullish w err = false ->
      name err <> "AbortError" ->
      (onError options && instanceofError err = true -> errorThrows w err = None) ->
      r.1 = Return Undefined /\ error r.2 = Some err).
Proof.
  intros Hf Hh He r.
  pose proof (attempt_did snapshot ro net st) as [Hc _].
  pose proof (attemptIn_did w snapshot ro net st) as Hd.
  unfold attempted in Hc, Hd. rewrite Hf, Hh in Hc, Hd.
  cbn [mbind option_bind] in Hc, Hd. rewrite He in Hc, Hd. cbn [fst snd] in Hc, Hd.
  assert ((attemptIn w snapshot ro net st).1 = Throw err) as Ha.
  { destruct (attemptIn_cases w snapshot ro net st)
      as [-> | (m & thrown & _ & _ & Hr & _)]; [done |].
    rewrite Hc in Hr. discriminate Hr. }
  destruct (triggerRequestIn_kept w snapshot ro net st)
    as (Hs & _ & Hw & _).
  assert (store r.2 !! key = Some snapshot) as Hk.
  { subst r. rewrite Hs, (did_store _ _ _ Hd). cbn. apply lookup_insert_eq. }
  split; [done |]. split; [done |].
  split; [unfold storeGet; by rewrite Hk |].
  split; [subst r; by rewrite Hw, (did_writes _ _ _ Hd) |].
  intros Hn Hab Hq. subst r. rewrite triggerRequestIn_caught. cbn zeta.
  rewrite Ha, Hn, decide_False by done.
  destruct (onError options && instanceofError err); [by rewrite Hq |]; done.
Qed.

(** C9, as the code has it.  [append] and [reload] return the promise of
    [triggerRequest] for the list they submit.  When the [try] block
    throws a value that is neither [null] nor [undefined] and is not
    named [AbortError], the value is handed to [onError] if that hook is
    configured and the value is an instance of [Error].  If the hook is
    not called or returns, the promise is fulfilled with [undefined] and
    the value becomes the value of the error accessor; if the hook
    throws, the promise is rejected with what it threw and the error
    accessor stays empty.  When the value thrown is [null] or
    [undefined], reading its name throws: the promise is rejected, no
    hook is called and the error accessor stays empty.  In every case
    the loading flag is lowered. *)
Theorem errors_fulfil_undefined w snapshot ro net st err :
  (attemptIn w snapshot ro net st).1 = Throw err ->
  let r := triggerRequestIn w snapshot ro net st in
  let called := onError options && instanceofError err in
  (forall (m : CreateMessage) st',
     let fresh := match cm_id m with
                  | Some i => bool_decide (i = "")
                  | None => true
                  end in
     appendIn options uniqueId w m ro net st'
     = triggerRequestIn w
         (default [] (messages options uniqueId st')
          ++ [{| id := if fresh then nanoid (nanoids st') else default "" (cm_id m);
                 createdAt := cm_createdAt m; content := cm_content m;
                 role := cm_role m |}])
         ro net (if fresh then (newId st').2 else st'))
  /\ (forall st' l lastMessage,
        messages options uniqueId st' = Some l ->
        last l = Some lastMessage ->
        reloadIn options uniqueId w ro net st'
        = triggerRequestIn w
            (if decide (role lastMessage = assistant)
             then take (length l - 1) l else l)
            ro net st')
  /\ isLoading r.2 = false
  /\ (nullish w err = true ->
      r.1 = Throw NameOfNullish
      /\ error r.2 = None
      /\ reports (trace r.2) = reports (trace st))
  /\ (nullish w err = false ->
      name err <> "AbortError" ->
      reports (trace r.2) = reports (trace st) ++ (if called then [err] else [])
      /\ match (if called then errorThrows w err else None) with
         | None => r.1 = Return Undefined /\ error r.2 = Some err
         | Some thrown => r.1 = Throw thrown /\ error r.2 = None
         end).
Proof.
  intros Ha r called.
  split.
  { intros m st' fresh. subst fresh. unfold appendIn.
    destruct (cm_id m) as [i |]; [| by run].
    destruct (decide (i = "")) as [Hi | Hi].
    - rewrite bool_decide_eq_true_2 by done. by run.
    - rewrite bool_decide_eq_false_2 by done. by run. }
  split.
  { intros st' l lastMessage Hl Hlast. unfold reloadIn.
    rewrite bind_read, Hl, Hlast.
    by destruct (decide (role lastMessage = assistant)). }
  pose proof (attemptIn_did w snapshot ro net st) as Hd.
  pose proof (did_error _ _ _ Hd) as He. pose proof (did_reports _ _ _ Hd) as Hr.
  cbn [started error trace with_abortController with_isLoading with_error] in He, Hr.
  split; [apply (triggerRequestIn_kept w snapshot ro net st) |].
  subst r. rewrite triggerRequestIn_caught. cbn zeta. rewrite Ha.
  split.
  - intros ->.
    cbn [fst snd trace error with_isLoading]. by rewrite Hr.
  - intros -> Hn. rewrite decide_False by done. subst called.
    destruct (onError options && instanceofError err).
    + destruct (errorThrows w err);
        cbn [fst snd trace error with_isLoading with_error emit];
        project; by rewrite Hr.
    + cbn [fst snd trace error with_isLoading with_error].
      by rewrite Hr, app_nil_r.
Qed.



(** C7, as the code has it.  When neither the body option of the hook
    nor the one of the call defines a property [messages] (one that does
    replaces the list), the request [triggerRequest] issues carries the
    submitted list under [messages]: with the option off or missing every
    message is sent as an object of exactly the properties [role] and
    [content], so without id and date; with the option on every message
    is sent with all its fields, the date as [JSON.stringify] writes a
    [Date]. *)
Theorem sent_message_fields snapshot ro net st :
  get (default [] (o_body options)) "messages" = None ->
  get (default [] (ro ≫= ro_body)) "messages" = None ->
  let r := request snapshot ro in
  requests (trace (triggerRequest snapshot ro net st).2) = requests (trace st) ++ [r]
  /\ (sendExtraMessageFields options <> Some true ->
      get (payload r) "messages"
      = Some (JArr ((fun m => JObj [("role", JStr (roleName (role m)));
                                    ("content", JStr (content m))]) <$> snapshot)))
  /\ (sendExtraMessageFields options = Some true ->
      exists sent,
        get (payload r) "messages" = Some (JArr sent)
        /\ length sent = length snapshot
        /\ forall i m j, snapshot !! i = Some m -> sent !! i = Some j ->
             field j "id" = Some (JStr (id m))
             /\ field j "createdAt" = JDate <$> createdAt m
             /\ field j "content" = Some (JStr (content m))
             /\ field j "role" = Some (JStr (roleName (role m)))).
Proof.
  intros Hb Hr r. split; [apply triggerRequest_requests |].
  assert (get (payload r) "messages" = Some (sentMessages options snapshot)) as Hg.
  { subst r. cbn [UseChat.request payload]. unfold requestBody.
    rewrite !get_spread by done. cbn. by rewrite decide_True. }
  rewrite Hg. unfold sentMessages. split.
  - intros Hs. by destruct (sendExtraMessageFields options) as [[|] |].
  - intros ->. exists (allFields <$> snapshot). split; [done |].
    split; [by rewrite length_fmap |].
    intros i m j Hm. rewrite list_lookup_fmap, Hm. intros [= <-].
    unfold allFields, field. by destruct (createdAt m).
Qed.


(** C2, as the code has it.  After the optimistic update, every write of a
    request that streams is the submitted list followed by one assistant
    message of the same id and date.  The content of that message starts
    as the first text and is, at each further write, the content before
    followed by the next text: its length never shrinks, and grows
    strictly with every text that is not empty.  The last content is all
    texts read put end to end. *)
Theorem streamed_writes snapshot ro net st res stream :
  fetched net = inr res ->
  (forall hook, onResponse options = Some hook -> hook res = None) ->
  ok res = true ->
  body res = Some stream ->
  let r := triggerRequest snapshot ro net st in
  let texts :=
    decoded createChunkDecoder (delivered (liveAtStream net) (chunks stream)) in
  exists contents,
    writes (trace r.2)
    = writes (trace st)
      ++ snapshot
         :: ((fun c => snapshot ++ [reply (nanoid (nanoids st)) (now net) c])
             <$> contents)
    /\ length contents = length texts
    /\ contents !! 0%nat = texts !! 0%nat
    /\ (forall i c c', contents !! i = Some c -> contents !! S i = Some c' ->
         exists s, texts !! S i = Some s
                   /\ c' = c +:+ s
                   /\ (String.length c <= String.length c')%nat
                   /\ (s <> "" -> (String.length c < String.length c')%nat))
    /\ default "" (last contents) = joined texts.
Proof.
  intros Hf Hh Hok Hb r texts.
  pose proof (triggerRequest_ended snapshot ro net st) as E. fold r in E.
  rewrite (attempted_stream _ _ _ _ _ _ _ Hf Hh Hok Hb) in E. cbn zeta in E.
  exists (replies net stream).
  split.
  { rewrite (ended_writes _ _ _ _ E).
    by destruct (if exhausted _ _ then _ else _). }
  split; [unfold texts; by rewrite replies_length, decoded_length |].
  split.
  { unfold replies. fold texts. by destruct texts. }
  split; [| apply replies_last].
  intros i c c' Hc Hc'.
  destruct (accumulated_step _ _ _ _ _ Hc Hc') as (s & Hs & ->).
  exists s. rewrite length_append. repeat split; [done | lia |].
  intros Hne. destruct s; [done |]. cbn. lia.
Qed.


(** ** Further properties of a request *)

Lemma foldl_insert_ne {V} (f : list Message -> V) (m : gmap string V) ws k :
  k <> key -> foldl (fun m d => <[key := f d]> m) m ws !! k = m !! k.
Proof.
  intros Hk. rewrite foldl_insert_last.
  destruct (last ws); [by rewrite lookup_insert_ne | done].
Qed.

Lemma attempted_written snapshot ro net previous n :
  exists ws, written (attempted snapshot ro net previous n).2 = snapshot :: ws.
Proof.
  unfold attempted. destruct (fetched net) as [err | res]; [by eexists |].
  destruct (onResponse options ≫= _); [by eexists |].
  destruct (negb (ok res)); [by eexists |].
  destruct (body res) as [stream |]; [| by eexists].
  by destruct (if exhausted _ _ then _ else _); eexists.
Qed.

Lemma triggerRequest_frame snapshot ro net st k :
  k <> key ->
  store (triggerRequest snapshot ro net st).2 !! k = store st !! k
  /\ chatApiStore (triggerRequest snapshot ro net st).2 !! k
      = chatApiStore st !! k.
Proof.
  intros Hk.
  pose proof (triggerRequest_ended snapshot ro net st) as E.
  rewrite (ended_store _ _ _ _ E), (ended_chatApiStore _ _ _ _ E).
  by rewrite (foldl_insert_ne (fun d => d)), (foldl_insert_ne Success).
Qed.

(** A request writes under its own key only: the lists of every other
    conversation stay as they were, in the store and in the cache. *)
Theorem other_keys_untouched snapshot ro net st k :
  k <> key ->
  store (triggerRequest snapshot ro net st).2 !! k = store st !! k
  /\ chatApiStore (triggerRequest snapshot ro net st).2 !! k
      = chatApiStore st !! k.
Proof. apply triggerRequest_frame. Qed.

Lemma triggerRequest_agreement snapshot ro net st :
  let r := triggerRequest snapshot ro net st in
  exists data,
    last (writes (trace r.2)) = Some data
    /\ store r.2 !! key = Some data
    /\ chatApiStore r.2 !! key = Some (Success data)
    /\ storeGet key r.2 = data.
Proof.
  intros r.
  pose proof (triggerRequest_ended snapshot ro net st) as E. fold r in E.
  destruct (attempted_written snapshot ro net (previousMessages st) (nanoids st))
    as [ws Hws].
  pose proof (ended_store_key _ _ _ _ E) as Hs.
  pose proof (ended_chatApiStore_key _ _ _ _ E) as Hc.
  pose proof (ended_writes _ _ _ _ E) as Hw.
  rewrite Hws in Hs, Hc, Hw.
  destruct (last (snapshot :: ws)) as [data |] eqn:El;
    [| by apply last_None in El].
  exists data. rewrite Hw, last_app, El.
  unfold storeGet. rewrite Hs, Hc. done.
Qed.

(** The list a request leaves under its key is the submitted list, or the
    data of the snapshot taken before the request (of status [success]),
    or the submitted list followed by one assistant message: never
    anything else, and never more than one message added. *)
Theorem final_list_shapes snapshot ro net st :
  let r := triggerRequest snapshot ro net st in
  store r.2 !! key = Some snapshot
  \/ (exists data, previousMessages st = Success data
                   /\ store r.2 !! key = Some data)
  \/ (exists result,
        store r.2 !! key
        = Some (snapshot ++ [reply (nanoid (nanoids st)) (now net) result])).
Proof.
  intros r.
  pose proof (triggerRequest_ended snapshot ro net st) as E. fold r in E.
  rewrite (ended_store_key _ _ _ _ E). unfold attempted.
  destruct (fetched net) as [err | res]; cbn [snd written].
  { destruct (previousMessages st) as [| data |]; cbn; eauto. }
  destruct (onResponse options ≫= _); cbn [snd written]; [by left |].
  destruct (negb (ok res)); cbn [snd written].
  { destruct (previousMessages st) as [| data |]; cbn; eauto. }
  destruct (body res) as [stream |]; cbn [snd written]; [| by left].
  assert (forall e1 e2 ws,
            written (match (if exhausted (liveAtStream net) (chunks stream)
                            then lastRead stream else None) with
                     | Some err => (Throw err, mkEffects ws e1 [] 1)
                     | None => (Return (Text (default "" (last (replies net stream)))),
                                mkEffects ws e1 e2 1)
                     end : Completion Settled * Effects).2 = ws) as ->
    by (intros; by destruct (if exhausted _ _ then _ else _)).
  rewrite last_written.
  destruct (last (replies net stream)) as [result |]; [right; right | left]; eauto.
Qed.

(** The [try] block either throws, with nothing handed to [onFinish], or
    returns the text of the last reply, which it hands to [onFinish]. *)
Lemma attempted_cases snapshot ro net previous n :
  (exists err ws k,
     attempted snapshot ro net previous n
     = (Throw err, mkEffects (snapshot :: ws) [request snapshot ro] [] k))
  \/ (exists rs,
       attempted snapshot ro net previous n
       = (Return (Text (default "" (last rs))),
          mkEffects
            (snapshot :: ((fun r => snapshot ++ [reply (nanoid n) (now net) r]) <$> rs))
            [request snapshot ro]
            (if onFinish options
             then [reply (nanoid n) (now net) (default "" (last rs))] else [])
            1)).
Proof.
  unfold attempted. destruct (fetched net) as [err | res]; [left; eauto |].
  destruct (onResponse options ≫= _); [left; eauto |].
  destruct (negb (ok res)); [left; eauto |].
  destruct (body res) as [stream |]; [| left; eauto].
  destruct (if exhausted _ _ then _ else _); [left | right]; eauto.
Qed.


(** The promise of a request is rejected only when the value thrown in
    the [try] block is [null] or [undefined], or when [onError] is called
    and throws; no error is recorded then.  Otherwise its value tells
    whether an error was recorded: [undefined] exactly when the error
    accessor is set, to the value thrown, and a text or [null] exactly
    when it is empty.  So with values thrown that are objects and an
    [onError] that returns, the promise is never rejected. *)
Theorem promise_tells_error w snapshot ro net st :
  let a := attemptIn w snapshot ro net st in
  let r := triggerRequestIn w snapshot ro net st in
  match r.1 with
  | Return Undefined => exists err, a.1 = Throw err /\ error r.2 = Some err
  | Return (Text _) | Return Null => error r.2 = None
  | Throw thrown =>
      error r.2 = None
      /\ exists err,
           a.1 = Throw err
           /\ (nullish w err = true /\ thrown = NameOfNullish
               \/ nullish w err = false
                  /\ onError options && instanceofError err = true
                  /\ errorThrows w err = Some thrown)
  end
  /\ ((forall err, nullish w err = false /\ errorThrows w err = None) ->
      exists v, r.1 = Return v).
Proof.
  intros a r.
  pose proof (attemptIn_did w snapshot ro net st) as Hd.
  pose proof (did_error _ _ _ Hd) as He.
  cbn [started error with_abortController with_isLoading with_error] in He.
  assert (forall v, a.1 = Return v -> exists s, v = Text s) as Hv.
  { intros v Hr. subst a.
    destruct (attemptIn_cases w snapshot ro net st)
      as [Hq | (m & thrown & _ & _ & _ & Ht & _)];
      [| rewrite Ht in Hr; discriminate Hr].
    rewrite Hq in Hr. destruct (attempt_did snapshot ro net st) as [Hc _].
    rewrite Hr in Hc.
    destruct (attempted_cases snapshot ro net (previousMessages st) (nanoids st))
      as [(err & ws & k & Hs) | (rs & Hs)]; rewrite Hs in Hc;
      [discriminate Hc | injection Hc as ->; eauto]. }
  subst r. rewrite triggerRequestIn_caught. fold a. fold a in He.
  destruct a.1 as [v | err].
  { destruct (Hv v eq_refl) as [s ->]. split; [done | eauto]. }
  destruct (nullish w err) eqn:En.
  { split; [split; [done | eauto 6] |].
    intros Hq. destruct (Hq err) as [Hn _]. rewrite Hn in En. discriminate En. }
  destruct (decide (name err = "AbortError")); [split; [done | eauto] |].
  destruct (onError options && instanceofError err) eqn:Ec;
    [| split; [cbn; eauto | eauto]].
  destruct (errorThrows w err) as [thrown |] eqn:Et.
  - split; [split; [done | eauto 8] |].
    intros Hq. destruct (Hq err) as [_ Hn]. rewrite Hn in Et. discriminate Et.
  - split; [cbn; eauto | eauto].
Qed.

(** A request calls at most one of the hooks [onFinish] and [onError], and
    at most once: [onFinish] only when the promise resolves to a text,
    with a message of that text; [onError] only when it resolves to
    [undefined], with the error recorded. *)
Theorem hooks_exclusive snapshot ro net st :
  let r := triggerRequest snapshot ro net st in
  exists fs rs,
    finishes (trace r.2) = finishes (trace st) ++ fs
    /\ reports (trace r.2) = reports (trace st) ++ rs
    /\ (length fs + length rs <= 1)%nat
    /\ (forall m, m ∈ fs -> r.1 = Return (Text (content m)))
    /\ (forall err, err ∈ rs -> r.1 = Return Undefined /\ error r.2 = Some err).
Proof.
  intros r.
  pose proof (triggerRequest_ended snapshot ro net st) as E. fold r in E.
  eexists _, _.
  split; [apply (ended_finishes _ _ _ _ E) |].
  split; [apply (ended_reports _ _ _ _ E) |].
  rewrite (ended_result _ _ _ _ E), (ended_error _ _ _ _ E).
  destruct (attempted_cases snapshot ro net (previousMessages st) (nanoids st))
    as [(err & ws & k & ->) | (rs & ->)];
    unfold reported, surfaced, settled; cbn [fst snd finished].
  - destruct (decide (name err = "AbortError")).
    + split; [cbn; lia |]. split; intros ? Hin; by apply elem_of_nil in Hin.
    + destruct (onError options && instanceofError err).
      * split; [cbn; lia |]. split; intros ? Hin;
          [by apply elem_of_nil in Hin |].
        by apply list_elem_of_singleton in Hin as ->.
      * split; [cbn; lia |]. split; intros ? Hin; by apply elem_of_nil in Hin.
  - destruct (onFinish options).
    + split; [cbn; lia |]. split; intros ? Hin;
        [| by apply elem_of_nil in Hin].
      by apply list_elem_of_singleton in Hin as ->.
    + split; [cbn; lia |]. split; intros ? Hin; by apply elem_of_nil in Hin.
Qed.

Lemma resolved_text_cached snapshot ro net st s :
  let r := triggerRequest snapshot ro net st in
  r.1 = Return (Text s) ->
  chatApiStore r.2 !! key
  = Some (Success (snapshot ++ [reply (nanoid (nanoids st)) (now net) s]))
  \/ (s = "" /\ chatApiStore r.2 !! key = Some (Success snapshot)).
Proof.
  intros r Hr.
  pose proof (triggerRequest_ended snapshot ro net st) as E. fold r in E.
  rewrite (ended_result _ _ _ _ E) in Hr.
  rewrite (ended_chatApiStore_key _ _ _ _ E).
  destruct (attempted_cases snapshot ro net (previousMessages st) (nanoids st))
    as [(err & ws & k & Ha) | (rs & Ha)]; rewrite Ha in Hr |- *;
    unfold settled in Hr; cbn [fst snd written] in Hr |- *.
  - by destruct (decide (name err = "AbortError")).
  - injection Hr as <-. rewrite last_written.
    destruct (last rs); [by left | by right].
Qed.

Lemma triggerRequest_shapes snapshot ro net st :
  let r := triggerRequest snapshot ro net st in
  store r.2 !! key = Some snapshot
  \/ (exists data, previousMessages st = Success data
                   /\ store r.2 !! key = Some data)
  \/ (exists result,
        store r.2 !! key
        = Some (snapshot ++ [reply (nanoid (nanoids st)) (now net) result])).
Proof.
  intros r.
  pose proof (triggerRequest_ended snapshot ro net st) as E. fold r in E.
  rewrite (ended_store_key _ _ _ _ E).
  destruct (attempted_cases snapshot ro net (previousMessages st) (nanoids st))
    as [(err & ws & k & Ha) | (rs & Ha)]; rewrite Ha; cbn [snd written].
  - revert Ha. unfold attempted.
    destruct (fetched net) as [err' | res].
    { intros [= _ <- _]. destruct (previousMessages st); cbn; eauto. }
    destruct (onResponse options ≫= _); [intros [= _ <- _]; by left |].
    destruct (negb (ok res)).
    { intros [= _ <- _]. destruct (previousMessages st); cbn; eauto. }
    destruct (body res) as [stream |]; [| intros [= _ <- _]; by left].
    destruct (if exhausted _ _ then _ else _); [| done].
    intros [= _ <- _]. rewrite last_written.
    destruct (last (replies net stream)); [right; right | left]; eauto.
  - rewrite last_written. destruct (last rs); [right; right | left]; eauto.
Qed.

(** After a request on a key whose cache entry had status [success],
    however the request ended, the store, the cache and the fetcher of
    the cache hold one and the same list: the last one the request
    wrote, which is the submitted list, the data of that entry, or the
    submitted list followed by one assistant reply (the hooks [onFinish]
    and [onError] returning). *)
Theorem observers_agree snapshot ro net st data0 :
  previousMessages st = Success data0 ->
  let r := triggerRequest snapshot ro net st in
  exists data,
    last (writes (trace r.2)) = Some data
    /\ store r.2 !! key = Some data
    /\ chatApiStore r.2 !! key = Some (Success data)
    /\ storeGet key r.2 = data
    /\ (data = snapshot
        \/ data = data0
        \/ exists result,
             data = snapshot ++ [reply (nanoid (nanoids st)) (now net) result]).
Proof.
  intros Hp r.
  destruct (triggerRequest_agreement snapshot ro net st)
    as (data & Hl & Hs & Hc & Hg).
  fold r in Hl, Hs, Hc, Hg. exists data. repeat (split; [done |]).
  destruct (triggerRequest_shapes snapshot ro net st)
    as [Hsh | [(data' & Hp' & Hsh) | (result & Hsh)]];
    fold r in Hsh; rewrite Hs in Hsh; injection Hsh as ->.
  - by left.
  - right; left. rewrite Hp in Hp'. by injection Hp'.
  - right; right. eauto.
Qed.

(** When the promise resolves to a text, that text is what the store
    shows: the list under the key is the submitted list followed by one
    assistant message of exactly that content or, when no chunk was read
    and the text is empty, the submitted list alone. *)
Theorem resolved_text_is_stored snapshot ro net st s :
  let r := triggerRequest snapshot ro net st in
  r.1 = Return (Text s) ->
  store r.2 !! key
  = Some (snapshot ++ [reply (nanoid (nanoids st)) (now net) s])
  \/ (s = "" /\ store r.2 !! key = Some snapshot).
Proof.
  intros r Hr.
  pose proof (triggerRequest_ended snapshot ro net st) as E. fold r in E.
  rewrite (ended_result _ _ _ _ E) in Hr. rewrite (ended_store_key _ _ _ _ E).
  destruct (attempted_cases snapshot ro net (previousMessages st) (nanoids st))
    as [(err & ws & k & Ha) | (rs & Ha)]; rewrite Ha in Hr |- *;
    unfold settled in Hr; cbn [fst snd written] in Hr |- *.
  - by destruct (decide (name err = "AbortError")).
  - injection Hr as <-. rewrite last_written.
    destruct (last rs); [by left | by right].
Qed.

(** When [onFinish] throws, the reply it was handed is complete and stays
    in the store, written as in a run where the hook returns; what the
    hook threw is then treated as an error of the request: unless it is
    [null] or [undefined] or named [AbortError], it is handed to
    [onError] if that hook is configured and, [onError] returning, the
    promise is fulfilled with [undefined] and the error accessor holds
    what [onFinish] threw. *)
Theorem finish_failure_surfaces w snapshot ro net st s thrown :
  onFinish options = true ->
  (triggerRequest snapshot ro net st).1 = Return (Text s) ->
  finishThrows w (reply (nanoid (nanoids st)) (now net) s) = Some thrown ->
  let q := triggerRequest snapshot ro net st in
  let r := triggerRequestIn w snapshot ro net st in
  (attemptIn w snapshot ro net st).1 = Throw thrown
  /\ store r.2 = store q.2
  /\ writes (trace r.2) = writes (trace q.2)
  /\ finishes (trace r.2)
      = finishes (trace st) ++ [reply (nanoid (nanoids st)) (now net) s]
  /\ (nullish w thrown = false ->
      name thrown <> "AbortError" ->
      (onError options && instanceofError thrown = true ->
       errorThrows w thrown = None) ->
      r.1 = Return Undefined
      /\ error r.2 = Some thrown
      /\ reports (trace r.2)
          = reports (trace st)
            ++ (if onError options && instanceofError thrown then [thrown] else [])).
Proof.
  intros Hon Hq Hf q r.
  pose proof (triggerRequest_ended snapshot ro net st) as E.
  pose proof (attempt_did snapshot ro net st) as [Hc _].
  pose proof (attemptIn_did w snapshot ro net st) as Hd.
  rewrite (ended_result _ _ _ _ E) in Hq.
  destruct (attempted_cases snapshot ro net (previousMessages st) (nanoids st))
    as [(err & ws & k & Ha) | (rs & Ha)];
    rewrite Ha in E, Hc, Hd, Hq; cbn [fst snd settled] in E, Hc, Hd, Hq.
  { by destruct (decide (name err = "AbortError")). }
  injection Hq as Hs. rewrite Hon in E, Hd. rewrite Hs in E, Hc, Hd.
  assert ((attemptIn w snapshot ro net st).1 = Throw thrown) as Ha'
    by by apply (attemptIn_finish w snapshot ro net st s).
  destruct (triggerRequestIn_kept w snapshot ro net st)
    as (Hst & _ & Hw & _ & Hfin & _).
  split; [done |].
  split; [subst r q; by rewrite Hst, (did_store _ _ _ Hd), (ended_store _ _ _ _ E) |].
  split; [subst r q; by rewrite Hw, (did_writes _ _ _ Hd), (ended_writes _ _ _ _ E) |].
  split; [subst r; by rewrite Hfin, (did_finishes _ _ _ Hd) |].
  intros Hn Hab Hret. subst r. rewrite triggerRequestIn_caught. cbn zeta.
  rewrite Ha', Hn, decide_False by done.
  pose proof (did_reports _ _ _ Hd) as Hr.
  cbn [started trace with_abortController with_isLoading with_error] in Hr.
  destruct (onError options && instanceofError thrown).
  - rewrite Hret by done.
    cbn [fst snd trace error with_isLoading with_error emit].
    project. by rewrite Hr.
  - cbn [fst snd trace error with_isLoading with_error].
    by rewrite Hr, app_nil_r.
Qed.

(** *** The cancellation handle *)

(** [stop] clears the handle and touches nothing else: the store, the
    cache, the error and the loading flag stay as they are.  It signals an
    abort only when a handle is in place; without one it does nothing, so
    a second call in a row has no effect. *)
Theorem stop_touches_handle_only st :
  let st' := (stop st).2 in
  store st' = store st
  /\ chatApiStore st' = chatApiStore st
  /\ error st' = error st
  /\ isLoading st' = isLoading st
  /\ abortController st' = None
  /\ trace st' = trace st ++ (if isLive st then [Abort] else [])
  /\ (abortController st = None -> st' = st)
  /\ (stop st').2 = st'.
Proof.
  unfold stop, bind, read, modify, setAbortController, isLive.
  destruct st as [? ? ? ? [a |] ? ?]; cbn; by rewrite ?app_nil_r.
Qed.

Lemma attempt_return_cleared snapshot ro net st v :
  (attempt snapshot ro net st).1 = Return v ->
  abortController (attempt snapshot ro net st).2 = None.
Proof.
  unfold attempt, UseChat.attempt, setError, setIsLoading, setAbortController,
    chatApiStore_get.
  rewrite !bind_modify, bind_read, bind_mutate, bind_fetch_catch.
  destruct (fetched net) as [err | res]; [by run |].
  destruct (onResponse options) as [hook |]; run;
    [destruct (hook res); run; [done |] |];
    (destruct (ok res); cbn [negb]; [| by run]);
    (destruct (body res) as [stream |]; [| by run]);
    run; rewrite bind_unfold;
    (destruct (readAll _ _ _ _ _ _ _ _ _) as [[result | err] st6]; [| done]);
    destruct (onFinish options); unfold when; run; done.
Qed.

(** Unless it recorded an error, a request leaves no handle behind: when
    its promise resolves to a text or to [null], the handle is cleared and
    a call of [stop] afterwards does nothing. *)
Theorem handle_cleared_unless_error snapshot ro net st :
  let r := triggerRequest snapshot ro net st in
  r.1 <> Return Undefined ->
  abortController r.2 = None /\ stop r.2 = (Return tt, r.2).
Proof.
  intros r Hr.
  assert (abortController r.2 = None) as Ha.
  { revert Hr. subst r.
    unfold triggerRequest, UseChat.triggerRequest, try_finally, try_catch.
    pose proof (attempt_return_cleared snapshot ro net st) as Hc.
    destruct (attempt snapshot ro net st) as [[v | err] st1]; cbn in Hc |- *.
    - intros _. by apply (Hc v).
    - unfold recover. destruct (decide (name err = "AbortError")); [done |].
      by destruct (onError options && instanceofError err). }
  split; [done |]. unfold stop, bind, read. cbn. by rewrite Ha.
Qed.

(** *** The order of the effects *)

Lemma grows_ret {A} (a : A) : grows (ret a).
Proof. intros st. exists []. by rewrite app_nil_r. Qed.

Lemma grows_throw {A} err : grows (throw (A := A) err).
Proof. intros st. exists []. by rewrite app_nil_r. Qed.

Lemma grows_read {A} (f : State -> A) : grows (read f).
Proof. intros st. exists []. by rewrite app_nil_r. Qed.

Lemma grows_quiet f : (forall st, trace (f st) = trace st) -> grows (modify f).
Proof. intros Hf st. exists []. cbn. by rewrite Hf, app_nil_r. Qed.

Lemma grows_emit ev : grows (modify (emit ev)).
Proof. intros st. by exists [ev]. Qed.

Lemma grows_bind {A B} (t : Task A) (k : A -> Task B) :
  grows t -> (forall a, grows (k a)) -> grows (bind t k).
Proof.
  intros Ht Hk st. rewrite bind_unfold. destruct (Ht st) as [evs1 H1].
  destruct (t st) as [[a | err] st1]; cbn in H1 |- *; [| by eexists].
  destruct (Hk a st1) as [evs2 H2]. exists (evs1 ++ evs2).
  by rewrite H2, H1, app_assoc.
Qed.

Lemma grows_try_catch {A} (t : Task A) (h : Err -> Task A) :
  grows t -> (forall err, grows (h err)) -> grows (try_catch t h).
Proof.
  intros Ht Hh st. unfold try_catch. destruct (Ht st) as [evs1 H1].
  destruct (t st) as [[a | err] st1]; cbn in H1 |- *; [by eexists |].
  destruct (Hh err st1) as [evs2 H2]. exists (evs1 ++ evs2).
  by rewrite H2, H1, app_assoc.
Qed.

Lemma grows_try_finally {A} (t : Task A) (final : Task unit) :
  grows t -> grows final -> grows (try_finally t final).
Proof.
  intros Ht Hf st. unfold try_finally. destruct (Ht st) as [evs1 H1].
  destruct (t st) as [c st1]. cbn in H1. destruct (Hf st1) as [evs2 H2].
  destruct (final st1) as [[[] | err] st2]; cbn in H2 |- *;
    exists (evs1 ++ evs2); by rewrite H2, H1, app_assoc.
Qed.

Lemma grows_stop : grows stop.
Proof.
  intros st. unfold stop, bind, read, modify, setAbortController.
  destruct (abortController st); cbn; [by exists [Abort] |].
  exists []. by rewrite app_nil_r.
Qed.

Lemma grows_suspended stopped : grows (suspended stopped).
Proof. destruct stopped; [apply grows_stop | apply grows_ret]. Qed.

Lemma grows_mutate data : grows (mutate options uniqueId data).
Proof. intros st. by exists [Mutate data]. Qed.

Lemma grows_restore previous : grows (restore options uniqueId previous).
Proof. destruct previous; first [apply grows_mutate | apply grows_ret]. Qed.

Lemma grows_newId : grows newId.
Proof. intros st. exists []. cbn. by rewrite app_nil_r. Qed.

Ltac grow :=
  repeat first
    [ apply grows_ret | apply grows_throw | apply grows_read
    | apply grows_emit | apply grows_suspended | apply grows_mutate
    | apply grows_restore | apply grows_newId
    | apply grows_quiet; intros ?; reflexivity
    | apply grows_bind; [| intros ?]
    | apply grows_try_catch; [| intros ?]
    | match goal with
      | |- grows (match ?x with _ => _ end) => destruct x
      | |- grows (when ?b _) => destruct b; unfold when
      end ].

Lemma grows_readAll snapshot rid t stopAtEnd ending pending :
  forall decoder result,
    grows (readAll snapshot rid t stopAtEnd ending decoder result pending).
Proof.
  induction pending as [|[stopped value] pending IH]; intros decoder result;
    cbn [UseChat.readAll]; [by grow |].
  apply grows_bind; [apply grows_suspended | intros _].
  destruct (decode decoder value) as [decoder' s]. grow. apply IH.
Qed.

Lemma grows_fetch req net : grows (fetch req net).
Proof. unfold fetch. by grow. Qed.

Lemma grows_recover err : grows (recover options err).
Proof. unfold recover. destruct (decide _); by grow. Qed.

Lemma attempt_trace snapshot ro net st :
  exists evs,
    trace (attempt snapshot ro net st).2
    = trace st ++ [Mutate snapshot; Fetch (request snapshot ro)] ++ evs.
Proof.
  unfold attempt, UseChat.attempt, setError, setIsLoading, setAbortController,
    chatApiStore_get.
  rewrite !bind_modify, bind_read, bind_mutate, bind_fetch_catch.
  destruct (grows_suspended (stopDuringFetch net)
              (emit (Fetch (request snapshot ro))
                 (mutate options uniqueId snapshot (started st)).2))
    as [evs0 Hevs0].
  cbn [mutate modify emit trace snd started with_abortController with_isLoading
         with_error with_store with_chatApiStore] in Hevs0.
  rewrite <- !app_assoc in Hevs0. cbn [app] in Hevs0.
  set (st3 := (suspended _ _).2) in *. clearbody st3.
  assert (forall A (t : Task A),
            grows t ->
            exists evs,
              trace (t st3).2
              = trace st ++ [Mutate snapshot; Fetch (request snapshot ro)] ++ evs)
    as Hfrom.
  { intros A t Ht. destruct (Ht st3) as [evs Hevs]. exists (evs0 ++ evs).
    rewrite Hevs, Hevs0, <- !app_assoc. done. }
  assert (forall res : Response,
    grows ((match onResponse options with
            | Some hook =>
                modify (emit CallOnResponse);;
                suspended (stopDuringOnResponse net);;
                match hook res with
                | Some err => throw err
                | None => ret ()
                end
            | None => ret ()
            end);;
           (if negb (ok res)
            then
              restore options uniqueId (default Pending (chatApiStore (started st) !! key));;
              suspended (stopDuringText net);;
              throw (Error (if decide (text res = "")
                            then "Failed to fetch the chat response."
                            else text res))
            else
              match body res with
              | Some stream =>
                  replyId <- newId;;
                  result <- readAll snapshot replyId (now net)
                              (stopDuringLastRead stream) (lastRead stream)
                              createChunkDecoder "" (chunks stream);;
                  when (onFinish options)
                    (modify (emit (CallOnFinish (reply replyId (now net) result))));;
                  setAbortController None;; ret (Text result)
              | None => throw (Error "The response body is empty.")
              end))) as Hrest.
  { intros res. apply grows_bind; [by grow | intros _].
    destruct (negb (ok res)); [by grow |].
    destruct (body res) as [stream |]; [| by grow].
    apply grows_bind; [by grow | intros replyId].
    apply grows_bind; [apply grows_readAll | intros result].
    unfold setAbortController. by grow. }
  destruct (fetched net) as [err | res].
  - apply Hfrom. apply grows_bind; [by grow | intros res; apply Hrest].
  - apply (Hfrom _ _ (Hrest res)).
Qed.

(** The optimistic update comes first: whatever the outcome, the first
    thing a request does to the outside is to write the submitted list,
    the second is to issue its one call of [fetch]; no other call of
    [fetch] follows. *)
Theorem optimistic_write_precedes_fetch snapshot ro net st :
  exists evs,
    trace (triggerRequest snapshot ro net st).2
    = trace st ++ Mutate snapshot :: Fetch (request snapshot ro) :: evs
    /\ requests evs = [].
Proof.
  assert (exists evs,
            trace (triggerRequest snapshot ro net st).2
            = trace st ++ Mutate snapshot :: Fetch (request snapshot ro) :: evs)
    as [evs Hevs].
  { unfold triggerRequest, UseChat.triggerRequest, try_finally, try_catch.
    destruct (attempt_trace snapshot ro net st) as [evs1 H1].
    destruct (attempt snapshot ro net st) as [[v | err] st1]; cbn in H1 |- *;
      [by eexists |].
    destruct (grows_recover err st1) as [evs2 H2].
    destruct (recover options err st1) as [c st2]. cbn in H2 |- *.
    exists (evs1 ++ evs2). by rewrite H2, H1, <- !app_assoc. }
  exists evs. split; [done |].
  pose proof (triggerRequest_requests snapshot ro net st) as Hr.
  rewrite Hevs in Hr. unfold requests in Hr |- *.
  rewrite omap_app in Hr. cbn in Hr. by apply app_inv_head in Hr as [= ->].
Qed.

(** *** Aborts *)

Lemma aborts_snoc tr ev :
  aborts (tr ++ [ev])
  = (aborts tr + match ev with Abort => 1 | _ => 0 end)%nat.
Proof.
  unfold aborts. rewrite omap_app, length_app. by destruct ev.
Qed.

Lemma spends_ret {A} (a : A) : spends (ret a).
Proof. by intros st. Qed.

Lemma spends_throw {A} err : spends (throw (A := A) err).
Proof. by intros st. Qed.

Lemma spends_read {A} (f : State -> A) : spends (read f).
Proof. by intros st. Qed.

Lemma spends_modify f :
  (forall st, (budget (f st) <= budget st)%nat) -> spends (modify f).
Proof. intros Hf st. apply Hf. Qed.

Lemma spends_emit ev : ev <> Abort -> spends (modify (emit ev)).
Proof.
  intros Hev st. unfold budget, isLive, modify, emit.
  cbn [snd trace abortController]. rewrite aborts_snoc.
  destruct ev; try done; lia.
Qed.

Lemma spends_bind {A B} (t : Task A) (k : A -> Task B) :
  spends t -> (forall a, spends (k a)) -> spends (bind t k).
Proof.
  intros Ht Hk st. rewrite bind_unfold. pose proof (Ht st) as H1.
  destruct (t st) as [[a | err] st1]; cbn in H1 |- *; [| done].
  pose proof (Hk a st1). lia.
Qed.

Lemma spends_try_catch {A} (t : Task A) (h : Err -> Task A) :
  spends t -> (forall err, spends (h err)) -> spends (try_catch t h).
Proof.
  intros Ht Hh st. unfold try_catch. pose proof (Ht st) as H1.
  destruct (t st) as [[a | err] st1]; cbn in H1 |- *; [done |].
  pose proof (Hh err st1). lia.
Qed.

Lemma spends_try_finally {A} (t : Task A) (final : Task unit) :
  spends t -> spends final -> spends (try_finally t final).
Proof.
  intros Ht Hf st. unfold try_finally. pose proof (Ht st) as H1.
  destruct (t st) as [c st1]. cbn in H1. pose proof (Hf st1) as H2.
  destruct (final st1) as [[[] | err] st2]; cbn in H2 |- *; lia.
Qed.

Lemma spends_stop : spends stop.
Proof.
  intros st. unfold stop, bind, read, modify, setAbortController, budget, isLive.
  destruct st as [? ? ? ? [a |] ? tr]; cbn -[aborts]; [| done].
  rewrite aborts_snoc. lia.
Qed.

Lemma spends_suspended stopped : spends (suspended stopped).
Proof. destruct stopped; [apply spends_stop | apply spends_ret]. Qed.

Lemma spends_mutate data : spends (mutate options uniqueId data).
Proof.
  intros st. unfold budget, isLive, mutate, modify, emit.
  cbn [snd trace abortController with_chatApiStore with_store].
  rewrite aborts_snoc. lia.
Qed.

Lemma spends_restore previous : spends (restore options uniqueId previous).
Proof. destruct previous; first [apply spends_mutate | apply spends_ret]. Qed.

Lemma spends_newId : spends newId.
Proof. by intros st. Qed.

Lemma spends_clear : spends (setAbortController None).
Proof.
  intros st. unfold budget, isLive, setAbortController, modify.
  cbn [snd trace abortController with_abortController].
  destruct (abortController st); lia.
Qed.

Ltac spend :=
  repeat first
    [ apply spends_ret | apply spends_throw | apply spends_read
    | apply spends_suspended | apply spends_mutate | apply spends_restore
    | apply spends_newId | apply spends_clear
    | apply spends_emit; discriminate
    | apply spends_modify; intros ?; reflexivity
    | apply spends_bind; [| intros ?]
    | apply spends_try_catch; [| intros ?]
    | match goal with
      | |- spends (match ?x with _ => _ end) => destruct x
      | |- spends (when ?b _) => destruct b; unfold when
      end ].

Lemma spends_readAll snapshot rid t stopAtEnd ending pending :
  forall decoder result,
    spends (readAll snapshot rid t stopAtEnd ending decoder result pending).
Proof.
  induction pending as [|[stopped value] pending IH]; intros decoder result;
    cbn [UseChat.readAll]; [by spend |].
  apply spends_bind; [apply spends_suspended | intros _].
  destruct (decode decoder value) as [decoder' s]. spend. apply IH.
Qed.

(** However often [stop] is called while a request runs, the request
    signals at most one abort. *)
Theorem abort_at_most_once snapshot ro net st :
  (aborts (trace (triggerRequest snapshot ro net st).2)
   <= aborts (trace st) + 1)%nat.
Proof.
  unfold triggerRequest, UseChat.triggerRequest, try_finally, try_catch,
    attempt, UseChat.attempt, setError, setIsLoading.
  unfold setAbortController at 1. rewrite !bind_modify. fold (started st).
  match goal with
  | |- context [bind (chatApiStore_get options uniqueId) ?k (started st)] =>
      assert (spends (bind (chatApiStore_get options uniqueId) k)) as Hrest
  end.
  { apply spends_bind; [by spend | intros previous].
    apply spends_bind; [by spend | intros _].
    apply spends_bind.
    { apply spends_try_catch; [unfold fetch; by spend | intros err; by spend]. }
    intros res. apply spends_bind; [by spend | intros _].
    destruct (negb (ok res)); [by spend |].
    destruct (body res) as [stream |]; [| by spend].
    apply spends_bind; [by spend | intros replyId].
    apply spends_bind; [apply spends_readAll | intros result]. by spend. }
  pose proof (Hrest (started st)) as Hb.
  assert (budget (started st) = (aborts (trace st) + 1)%nat) as Hst by done.
  destruct (bind _ _ (started st)) as [[v | err] st1]; cbn [snd] in Hb |- *.
  - rewrite Hst in Hb. unfold budget in Hb. cbn -[aborts].
    destruct (isLive st1); lia.
  - assert (spends (recover options err)) as Hrec.
    { unfold recover. destruct (decide _); by spend. }
    pose proof (Hrec st1) as Hb1.
    destruct (recover options err st1) as [c st2].
    rewrite Hst in Hb. unfold budget in Hb, Hb1. cbn -[aborts] in Hb1 |- *.
    destruct (isLive st1), (isLive st2); lia.
Qed.

(** *** Keys and hooks that share one *)

(** On one endpoint the key tells conversations apart: two hooks have the
    same key exactly when they have the same chat id. *)
Theorem key_separates_chats options' uniqueId' :
  api options' = api options ->
  (UseChat.key options' uniqueId' = key
   <-> chatId options' uniqueId' = chatId options uniqueId).
Proof.
  intros Hapi. unfold UseChat.key. rewrite Hapi. split; [| by intros ->].
  intros Hk. by apply (inj (String.append _)), (inj (String.append _)) in Hk.
Qed.


(** [setMessages] writes the list to the store and to the cache under the
    key of the hook and leaves the rest as it is: every hook of the same
    key shares the entry written and the fetcher of the cache returns it
    from then on, while the lists of every other key, the error, the
    loading flag and the handle of a request in flight stay as they
    were. *)
Theorem setMessages_writes_key options' uniqueId' l st :
  let st' := (setMessages options uniqueId l st).2 in
  let key' := UseChat.key options' uniqueId' in
  store st' !! key = Some l
  /\ chatApiStore st' !! key = Some (Success l)
  /\ storeGet key st' = l
  /\ writes (trace st') = writes (trace st) ++ [l]
  /\ (key' = key ->
      store st' !! key' = Some l
      /\ chatApiStore st' !! key' = Some (Success l)
      /\ storeGet key' st' = l)
  /\ (key' <> key ->
      store st' !! key' = store st !! key'
      /\ chatApiStore st' !! key' = chatApiStore st !! key'
      /\ storeGet key' st' = storeGet key' st)
  /\ error st' = error st
  /\ isLoading st' = isLoading st
  /\ abortController st' = abortController st.
Proof.
  unfold setMessages, mutate, storeGet. cbn. project.
  rewrite !lookup_insert_eq.
  repeat split; try done;
    match goal with
    | Hk : _ = key |- _ => by rewrite Hk, lookup_insert_eq
    | Hk : _ <> key |- _ => by rewrite lookup_insert_ne
    end.
Qed.

(** *** What is sent *)

(** The call of [fetch] is a [POST] to the endpoint of the hook with its
    credentials; for every header name the value given with the call
    wins over the value given to the hook, and a name given to neither is
    not sent. *)
Theorem header_precedence snapshot ro h :
  let req := request snapshot ro in
  url req = api options
  /\ method req = "POST"
  /\ req_credentials req = credentials options
  /\ req_headers req !! h
      = match (ro ≫= ro_headers) ≫= (fun hs => hs !! h) with
        | Some v => Some v
        | None => headers options ≫= (fun hs => hs !! h)
        end.
Proof.
  cbn. repeat split. unfold mergeHeaders. rewrite lookup_union.
  destruct (ro ≫= ro_headers) as [hs |]; cbn;
    [destruct (hs !! h) |]; destruct (headers options) as [hs' |]; cbn;
    rewrite ?lookup_empty; try done; by destruct (hs' !! h).
Qed.

Lemma get_assign_eq o k v : get (assign o k v) k = Some v.
Proof.
  induction o as [|[k0 v0] o IH]; cbn.
  - by rewrite decide_True.
  - destruct (decide (k0 = k)) as [-> |]; cbn.
    + by rewrite decide_True.
    + by rewrite decide_False.
Qed.

Lemma get_None o k : get o k = None <-> k ∉ o.*1.
Proof.
  induction o as [|[k0 v0] o IH]; cbn.
  - split; [intros _; apply not_elem_of_nil | done].
  - rewrite not_elem_of_cons. destruct (decide (k0 = k)) as [-> |].
    + split; [done | by intros [? _]].
    + rewrite IH. split; [by intros ? | by intros [_ ?]].
Qed.

Lemma get_foldl_assign o (l : Obj) k :
  NoDup l.*1 ->
  get (foldl (fun acc kv => assign acc kv.1 kv.2) o l) k
  = match get l k with Some v => Some v | None => get o k end.
Proof.
  revert o. induction l as [|[k' v] l IH]; intros o; [done |].
  cbn [fmap list_fmap fst]. intros [Hk' Hl]%NoDup_cons.
  cbn [foldl get fst snd]. rewrite IH by done.
  destruct (decide (k' = k)) as [-> |].
  - apply get_None in Hk'. by rewrite Hk', get_assign_eq.
  - by rewrite get_assign_ne.
Qed.

(** For every property of the request body the value given with the call
    wins over the value given to the hook, which wins over the submitted
    list under [messages]; a property given nowhere is not sent.  The
    bodies are objects, whose property names do not repeat. *)
Theorem body_precedence snapshot ro k :
  NoDup (default [] (o_body options)).*1 ->
  NoDup (default [] (ro ≫= ro_body)).*1 ->
  get (payload (request snapshot ro)) k
  = match get (default [] (ro ≫= ro_body)) k with
    | Some v => Some v
    | None =>
        match get (default [] (o_body options)) k with
        | Some v => Some v
        | None =>
            if decide (k = "messages")
            then Some (sentMessages options snapshot) else None
        end
    end.
Proof.
  intros Ho Hr. cbn [UseChat.request payload]. unfold requestBody, spread.
  rewrite !get_foldl_assign by done. cbn [get].
  destruct (decide (k = "messages")) as [-> | Hk].
  - by rewrite decide_True.
  - by rewrite (decide_False (P := "messages" = k)).
Qed.

(** *** The operations of the hook *)

(** [append] keeps an id that is given and not empty and draws one
    otherwise; it submits the list [messages()] returns followed by the
    message.  It leaves under the key, in the store, that list and the
    message, or the data of the cache entry of status [success] read
    before the request (written back after a failure), or the list, the
    message and one assistant reply. *)
Theorem append_outcomes m ro net st current :
  messages options uniqueId st = Some current ->
  let r := append options uniqueId m ro net st in
  let msg :=
    {| id := match cm_id m with
             | Some i => if decide (i = "") then nanoid (nanoids st) else i
             | None => nanoid (nanoids st)
             end;
       createdAt := cm_createdAt m; content := cm_content m;
       role := cm_role m |} in
  requests (trace r.2) = requests (trace st) ++ [request (current ++ [msg]) ro]
  /\ (exists ws, writes (trace r.2) = writes (trace st) ++ (current ++ [msg]) :: ws)
  /\ (store r.2 !! key = Some (current ++ [msg])
      \/ (exists data, previousMessages st = Success data
                       /\ store r.2 !! key = Some data)
      \/ exists answer,
           role answer = assistant
           /\ store r.2 !! key = Some (current ++ [msg; answer])).
Proof.
  intros Hc r msg.
  assert (exists st0,
            r = triggerRequest (current ++ [msg]) ro net st0
            /\ chatApiStore st0 = chatApiStore st
            /\ trace st0 = trace st) as (st0 & Hr & Hc0 & Ht0).
  { subst r msg. unfold append.
    destruct (cm_id m) as [i |]; [destruct (decide (i = "")) |];
      run;
      change (messages options uniqueId (newId st).2)
        with (messages options uniqueId st);
      rewrite Hc; cbn [default]; eexists; (split; [reflexivity |]); done. }
  rewrite Hr, <- Ht0. split; [apply triggerRequest_requests |].
  split.
  { pose proof (triggerRequest_ended (current ++ [msg]) ro net st0) as E.
    rewrite (ended_writes _ _ _ _ E).
    destruct (attempted_written (current ++ [msg]) ro net
                (previousMessages st0) (nanoids st0)) as [ws ->]. eauto. }
  destruct (triggerRequest_shapes (current ++ [msg]) ro net st0)
    as [Hs | [(data & Hp & Hs) | (result & Hs)]]; rewrite Hs.
  - by left.
  - right; left. exists data. split; [| done].
    unfold previousMessages in Hp |- *. by rewrite <- Hc0.
  - right; right. eexists. split; [| by rewrite <- app_assoc]. done.
Qed.

(** [reload] after a request that resolved to a text which is not empty
    regenerates: it drops the reply and submits the very list that
    request submitted. *)
Theorem reload_regenerates snapshot ro net st s ro' net' :
  let r := triggerRequest snapshot ro net st in
  r.1 = Return (Text s) ->
  s <> "" ->
  reload options uniqueId ro' net' r.2
  = triggerRequest snapshot ro' net' r.2.
Proof.
  intros r Hr Hs.
  destruct (resolved_text_cached snapshot ro net st s Hr) as [Hc | [? _]];
    [| done].
  fold r in Hc. unfold reload, messages. rewrite bind_read, Hc, last_snoc.
  cbn [role reply]. rewrite decide_True by done.
  by rewrite length_app, Nat.add_sub, take_app_length.
Qed.

(** [handleSubmit] does nothing for an empty input: no request, the state
    and the input as they were.  For any other input it clears the input
    and issues one request, whose list is the current one followed by a
    user message of that text, dated, with a fresh id. *)
Theorem handleSubmit_cases input date net st :
  (input = "" ->
   handleSubmit options uniqueId input date net st = (input, st))
  /\ (input <> "" ->
      let r := handleSubmit options uniqueId input date net st in
      let msg := {| id := nanoid (nanoids st); createdAt := Some date;
                    content := input; role := user |} in
      r.1 = ""
      /\ requests (trace r.2)
          = requests (trace st)
            ++ [request (default [] (messages options uniqueId st) ++ [msg]) None]).
Proof.
  unfold handleSubmit. split.
  - intros ->. by rewrite decide_True.
  - intros Hi. rewrite decide_False by done. cbn [fst snd]. split; [done |].
    unfold append. cbn [cm_id cm_createdAt cm_content cm_role]. run.
    by rewrite triggerRequest_requests.
Qed.

End request.

(** ** Sample runs *)

#[local] Existing Instance byteUtils.

(** The example of the specification: the user says [hi], the endpoint
    streams [He] and [llo]. *)
Example hello_run :
  let r := triggerRequest (H := byteUtils) chat 0 [hi] None
             (streaming [(false, bytes "He"); (false, bytes "llo")] None) idle in
  r.1 = Return (Text "Hello")
  /\ writes (trace r.2)
     = [ [hi];
         [hi; reply "reply-0" 1700 "He"];
         [hi; reply "reply-0" 1700 "Hello"] ]
  /\ store r.2 !! "/api/chat|c" = Some [hi; reply "reply-0" 1700 "Hello"]
  /\ isLoading r.2 = false
  /\ error r.2 = None.
Proof. vm_compute. repeat split; reflexivity. Qed.

(** The other example: status 500 with the body [rate limited]. *)
Example rate_limited_run :
  let r := triggerRequest (H := byteUtils) chat 0 [hi] None
             (answering {| ok := false; text := "rate limited"; body := None |})
             idle in
  store r.2 !! "/api/chat|c" = Some []
  /\ (message <$> error r.2) = Some "rate limited".
Proof. vm_compute. split; reflexivity. Qed.

(** ** The claims on a run *)

Lemma noHook (res : Response) :
  forall hook, onResponse chat = Some hook -> hook res = None.
Proof. intros hook Hk. discriminate Hk. Defined.

(** Witness of C6: after [Hello], [reload] submits [hi] alone. *)
Lemma reload_cases_witness :
  messages chat 0 answered = Some ([hi] ++ [hello])
  /\ forall net,
       reload (H := byteUtils) chat 0 None net answered
       = triggerRequest chat 0 [hi] None net answered.
Proof.
  assert (messages chat 0 answered = Some ([hi] ++ [hello])) as Hl
    by (vm_compute; reflexivity).
  split; [exact Hl |]. intros net.
  destruct (reload_cases chat 0 None net answered _ Hl) as (_ & Hdrop & _).
  exact (proj1 (Hdrop [hi] hello eq_refl eq_refl)).
Defined.

(** Witness of C7: the request for [hi] carries its role and content only. *)
Lemma sent_message_fields_witness :
  get (payload (request chat [hi] None)) "messages"
  = Some (JArr [JObj [("role", JStr "user"); ("content", JStr "hi")]]).
Proof.
  destruct (sent_message_fields (H := byteUtils) chat 0 [hi] None
              (streaming [] None) idle eq_refl eq_refl) as (_ & Hoff & _).
  apply Hoff. discriminate.
Defined.

(** C7 as stated fails when a body option defines [messages] itself: the
    option to send every field is off, yet the request carries the list
    of the body option, ids included, in place of the submitted list
    stripped to role and content. *)
Lemma sent_message_fields_counterexample :
  let r := triggerRequest (H := byteUtils) relabelled 0 [hi] None
             (streaming [] None) idle in
  sendExtraMessageFields relabelled = None
  /\ exists req sent,
       requests (trace r.2) = [req]
       /\ get (payload req) "messages" = Some (JArr [sent])
       /\ field sent "id" = Some (JStr "m1")
       /\ sent <> JObj [("role", JStr "user"); ("content", JStr "hi")].
Proof.
  split; [reflexivity |].
  eexists _, _. split; [vm_compute; reflexivity |].
  split; [vm_compute; reflexivity |].
  split; [vm_compute; reflexivity | discriminate].
Qed.

(** Witness of C9: the network is down and [onError] returns. *)
Lemma errors_fulfil_undefined_witness :
  let r := triggerRequestIn (H := byteUtils) chat 0 quiet [hi] None
             (rejecting false NetworkError) idle in
  isLoading r.2 = false
  /\ r.1 = Return Undefined
  /\ error r.2 = Some NetworkError
  /\ reports (trace r.2) = [NetworkError].
Proof.
  destruct (errors_fulfil_undefined (H := byteUtils) chat 0 quiet [hi] None
              (rejecting false NetworkError) idle NetworkError eq_refl)
    as (_ & _ & Hl & _ & Herr).
  split; [exact Hl |].
  destruct (Herr eq_refl) as (Hrep & Hr & He); [discriminate |].
  split; [exact Hr |]. split; [exact He | exact Hrep].
Defined.

(** C9 as stated fails when [onError] throws: the network is down, the
    hook is handed the error and throws, and the promise of [append] is
    rejected with what the hook threw while the error accessor stays
    empty. *)
Lemma errors_fulfil_undefined_counterexample :
  let r := appendIn (H := byteUtils) chat 0 faulty thanks None
             (rejecting false NetworkError) idle in
  r.1 = Throw hookFailure
  /\ r.1 <> Return Undefined
  /\ error r.2 = None
  /\ reports (trace r.2) = [NetworkError]
  /\ isLoading r.2 = false.
Proof. vm_compute. repeat split; try reflexivity. discriminate. Qed.

(** Witness of C10: the hook refuses a response that was fine. *)
Lemma hook_failure_keeps_snapshot_witness :
  let r := triggerRequestIn (H := byteUtils) guarded 0 quiet [hi] None
             (answering fine) idle in
  store r.2 !! "/api/chat|c" = Some [hi]
  /\ writes (trace r.2) = [[hi]]
  /\ error r.2 = Some refusal.
Proof.
  destruct (hook_failure_keeps_snapshot (H := byteUtils) guarded 0 quiet [hi] None
              (answering fine) idle fine (fun _ => Some refusal) refusal
              eq_refl eq_refl eq_refl) as (_ & Hstore & _ & Hw & Herr).
  split; [exact Hstore |]. split; [exact Hw |].
  apply Herr; [reflexivity | discriminate | reflexivity].
Defined.



(** Witness of C2: the writes of [He] and [llo]. *)
Lemma streamed_writes_witness :
  let r := triggerRequest chat 0 [hi] None
             (streaming [(false, bytes "He"); (false, bytes "llo")] None) idle in
  exists contents,
    writes (trace r.2)
    = [hi] :: ((fun c => [hi] ++ [reply "reply-0" 1700 c]) <$> contents)
    /\ default "" (last contents) = "Hello".
Proof.
  destruct (streamed_writes chat 0 [hi] None
              (streaming [(false, bytes "He"); (false, bytes "llo")] None) idle
              _ _ eq_refl (noHook _) eq_refl eq_refl)
    as (contents & Hw & _ & _ & _ & Hlast).
  exists contents. split; [exact Hw | exact Hlast].
Defined.

(** C2 as stated fails when a chunk decodes to the empty text, as an empty
    chunk does: the content is [a] after the first chunk and still [a]
    after the second, so its length does not grow. *)
Lemma streamed_writes_counterexample :
  let r := triggerRequest chat 0 [hi] None
             (streaming [(false, bytes "a"); (false, bytes "")] None) idle in
  exists first second,
    writes (trace r.2) = [ [hi]; [hi; first]; [hi; second] ]
    /\ ~ (String.length (content first) < String.length (content second))%nat.
Proof.
  exists (reply "reply-0" 1700 "a"), (reply "reply-0" 1700 "a").
  split; [vm_compute; reflexivity |]. cbn. lia.
Qed.







(** ** Further properties on a run *)

(** A request of conversation [c] leaves conversation [d] alone. *)
Lemma other_keys_untouched_witness :
  let r := triggerRequest chat 0 [hi] None
             (streaming [(false, bytes "He"); (false, bytes "llo")] None) idle in
  store r.2 !! "/api/chat|d" = None
  /\ chatApiStore r.2 !! "/api/chat|d" = None.
Proof.
  apply (other_keys_untouched chat 0 [hi] None
           (streaming [(false, bytes "He"); (false, bytes "llo")] None) idle
           "/api/chat|d").
  intros Hk. vm_compute in Hk. discriminate Hk.
Defined.

(** The text [Hello] the promise resolves to is the content stored. *)
Lemma resolved_text_is_stored_witness :
  let r := triggerRequest chat 0 [hi] None
             (streaming [(false, bytes "He"); (false, bytes "llo")] None) idle in
  store r.2 !! "/api/chat|c" = Some ([hi] ++ [hello])
  \/ ("Hello" = "" /\ store r.2 !! "/api/chat|c" = Some [hi]).
Proof.
  assert (Return (Text "Hello")
          = (triggerRequest chat 0 [hi] None
               (streaming [(false, bytes "He"); (false, bytes "llo")] None) idle).1)
    as Hr by (vm_compute; reflexivity).
  pose proof (resolved_text_is_stored chat 0 [hi] None
                (streaming [(false, bytes "He"); (false, bytes "llo")] None) idle
                "Hello" (eq_sym Hr)) as Hs.
  vm_compute in Hs |- *. exact Hs.
Defined.

(** [Hello] is streamed and stored, then [onFinish] throws. *)
Lemma finish_failure_surfaces_witness :
  let r := triggerRequestIn chat 0 clumsy [hi] None
             (streaming [(false, bytes "He"); (false, bytes "llo")] None) idle in
  r.1 = Return Undefined
  /\ error r.2 = Some hookFailure
  /\ store r.2 = store answered.
Proof.
  assert ((triggerRequest chat 0 [hi] None
             (streaming [(false, bytes "He"); (false, bytes "llo")] None) idle).1
          = Return (Text "Hello")) as Hq by (vm_compute; reflexivity).
  destruct (finish_failure_surfaces chat 0 clumsy [hi] None
              (streaming [(false, bytes "He"); (false, bytes "llo")] None) idle
              "Hello" hookFailure eq_refl Hq eq_refl)
    as (_ & Hst & _ & _ & Herr).
  destruct Herr as (Hr & He & _); [reflexivity | discriminate | reflexivity |].
  split; [exact Hr |]. split; [exact He | exact Hst].
Defined.

(** After [Hello] no handle is left, and [stop] does nothing. *)
Lemma handle_cleared_unless_error_witness :
  abortController answered = None /\ stop answered = (Return tt, answered).
Proof.
  apply (handle_cleared_unless_error chat 0 [hi] None
           (streaming [(false, bytes "He"); (false, bytes "llo")] None) idle).
  vm_compute. discriminate.
Defined.

(** The hooks [chat] and [guarded] are of one conversation, [chat] and
    [other] are not. *)
Lemma key_separates_chats_witness :
  UseChat.key guarded 7 = UseChat.key chat 0
  /\ (UseChat.key other 0 = UseChat.key chat 0 -> False).
Proof.
  split.
  - apply (key_separates_chats chat 0 guarded 7 eq_refl). reflexivity.
  - intros Hk.
    apply (key_separates_chats chat 0 other 0 eq_refl) in Hk. discriminate Hk.
Defined.

(** The model given with the call wins, the user given to the hook stays,
    the list is sent under [messages]. *)
Lemma body_precedence_witness :
  get (payload (request tuned [hi] (Some override))) "model" = Some (JStr "large")
  /\ get (payload (request tuned [hi] (Some override))) "user" = Some (JStr "u1")
  /\ get (payload (request tuned [hi] (Some override))) "messages"
      = Some (JArr [JObj [("role", JStr "user"); ("content", JStr "hi")]]).
Proof.
  assert (NoDup (default [] (o_body tuned)).*1) as Ho
    by (apply NoDup_ListNoDup; vm_compute; repeat constructor; cbn;
        intuition discriminate).
  assert (NoDup (default [] (Some override ≫= ro_body)).*1) as Hr
    by (apply NoDup_ListNoDup; vm_compute; repeat constructor; cbn;
        intuition discriminate).
  split; [| split].
  - exact (body_precedence tuned [hi] (Some override) "model" Ho Hr).
  - exact (body_precedence tuned [hi] (Some override) "user" Ho Hr).
  - exact (body_precedence tuned [hi] (Some override) "messages" Ho Hr).
Defined.

(** After [Hello], the user appends [thanks] and the endpoint fails. *)
Lemma append_outcomes_witness :
  let r := append chat 0 thanks None
             (answering {| ok := false; text := "busy"; body := None |}) answered in
  requests (trace r.2)
  = requests (trace answered)
    ++ [request chat ([hi; hello]
                      ++ [{| id := "m2"; createdAt := None; content := "thanks";
                             role := user |}]) None].
Proof.
  assert (messages chat 0 answered = Some [hi; hello])
    as Hc by (vm_compute; reflexivity).
  exact (proj1 (append_outcomes chat 0 thanks None
                  (answering {| ok := false; text := "busy"; body := None |})
                  answered [hi; hello] Hc)).
Defined.

(** After [Hello], [reload] submits [hi] again. *)
Lemma reload_regenerates_witness :
  reload chat 0 None (streaming [] None) answered
  = triggerRequest chat 0 [hi] None (streaming [] None) answered.
Proof.
  apply (reload_regenerates chat 0 [hi] None
           (streaming [(false, bytes "He"); (false, bytes "llo")] None) idle
           "Hello").
  - vm_compute. reflexivity.
  - discriminate.
Defined.

(** What [chat] sets is the entry of [guarded], not that of [other]. *)
Lemma setMessages_writes_key_witness :
  store (setMessages chat 0 [hi] idle).2 !! UseChat.key guarded 7 = Some [hi]
  /\ store (setMessages chat 0 [hi] idle).2 !! UseChat.key other 0
      = store idle !! UseChat.key other 0.
Proof.
  split.
  - destruct (setMessages_writes_key chat 0 guarded 7 [hi] idle)
      as (_ & _ & _ & _ & Hsame & _).
    exact (proj1 (Hsame eq_refl)).
  - destruct (setMessages_writes_key chat 0 other 0 [hi] idle)
      as (_ & _ & _ & _ & _ & Hother & _).
    apply Hother. intros Hk. vm_compute in Hk. discriminate Hk.
Defined.

(** After [Hello] the store, the cache and the fetcher agree. *)
Lemma observers_agree_witness :
  exists data,
    last (writes (trace answered)) = Some data
    /\ store answered !! UseChat.key chat 0 = Some data
    /\ chatApiStore answered !! UseChat.key chat 0 = Some (Success data)
    /\ storeGet (UseChat.key chat 0) answered = data.
Proof.
  assert (previousMessages chat 0 idle = Success []) as Hp
    by (vm_compute; reflexivity).
  destruct (observers_agree chat 0 [hi] None
              (streaming [(false, bytes "He"); (false, bytes "llo")] None)
              idle [] Hp) as (data & Hl & Hs & Hc & Hg & _).
  exists data. split; [exact Hl |]. split; [exact Hs |].
  split; [exact Hc | exact Hg].
Defined.


(** The user submits [thanks] after [Hello]. *)
Lemma handleSubmit_cases_witness :
  (handleSubmit chat 0 "thanks" 1800 (streaming [] None) answered).1 = ""
  /\ handleSubmit chat 0 "" 1800 (streaming [] None) answered = ("", answered).
Proof.
  destruct (handleSubmit_cases chat 0 "thanks" 1800 (streaming [] None) answered)
    as (_ & Hsent).
  destruct (handleSubmit_cases chat 0 "" 1800 (streaming [] None) answered)
    as (Hempty & _).
  split; [apply Hsent; discriminate | apply Hempty; reflexivity].
Defined.
